(** * InstagramChat-2-LLMdataset: the conversation segmenter

    A shallow embedding of [src/src/parser.py] (class [MessageParser]), of
    the older root-level [src/parser.py] and of [src/transformer.py], with
    the properties of the segmentation algorithm proved about the embedded
    code.

    Conventions of the embedding:
    - a Python [str] is a [string] whose characters are the code points
      below 256; [str.lower] and [str.strip] are given on that range;
    - a Python [int] is a [Z];
    - the float [abs(ts2 - ts1) / 1000.0] is the exact rational of [Q]; the
      comparison with an integer threshold agrees with the floating-point
      one for all differences below 2^53 milliseconds;
    - a JSON object is a record of the keys the parser reads, each key
      optional ([None] when the key is absent);
    - the set of senders of a conversation is a [gset string]. *)

From Stdlib Require Import ZArith QArith Ascii.
From stdpp Require Import base option list sorting gmap strings.

Local Open Scope Z_scope.

(** ** Python strings *)

Module Str.

(** [c.lower()] for a character below 256: A-Z and the Latin-1 capitals
    (0xC0-0xDE but the multiplication sign 0xD7) move 32 up. *)
Definition lower_char (c : ascii) : ascii :=
  let n := N_of_ascii c in
  if ((65 <=? n) && (n <=? 90) ||
      (192 <=? n) && (n <=? 222) && negb (n =? 215))%N
  then ascii_of_N (n + 32) else c.

Fixpoint lower (s : string) : string :=
  match s with
  | EmptyString => EmptyString
  | String c s' => String (lower_char c) (lower s')
  end.

(** [c.isspace()] below 256: tab to carriage return, the four
    separators 0x1C-0x1F, space, NEL and the no-break space. *)
Definition isspace (c : ascii) : bool :=
  let n := N_of_ascii c in
  ((9 <=? n) && (n <=? 13) || (28 <=? n) && (n <=? 32) ||
   (n =? 133) || (n =? 160))%N.

Fixpoint lstrip (s : string) : string :=
  match s with
  | EmptyString => EmptyString
  | String c s' => if isspace c then lstrip s' else s
  end.

Definition rstrip (s : string) : string :=
  String.rev (lstrip (String.rev s)).

Definition strip (s : string) : string := rstrip (lstrip s).

(** [s.endswith(suffix)] *)
Definition endswith (s suffix : string) : bool :=
  String.prefix (String.rev suffix) (String.rev s).

(** [sep.join(parts)] *)
Fixpoint join (sep : string) (parts : list string) : string :=
  match parts with
  | [] => ""
  | [p] => p
  | p :: rest => p +:+ sep +:+ join sep rest
  end.

End Str.

(** ** [sorted]

    Python's [sorted] is stable: the result is the one ordered permutation
    that keeps elements with equal keys in their input order.  Insertion
    from the right, in front of the first element that is not smaller,
    computes the same list. *)

Section Sorted.
Context {A : Type} (leb : A → A → bool).

Fixpoint insert_sorted (x : A) (l : list A) : list A :=
  match l with
  | [] => [x]
  | y :: l' => if leb x y then x :: l else y :: insert_sorted x l'
  end.

Definition sorted (l : list A) : list A := foldr insert_sorted [] l.
End Sorted.

(** The order of [sorted(l, key=key)] for an integer key. *)
Definition key_leb {A : Type} (key : A → Z) (x y : A) : bool := key x <=? key y.

(** ** Data model *)

(** The [share] object of a raw record. *)
Record Share := { share_text : option string }.

(** A decoded JSON object ([dict]).  One Python type serves for the export
    file (keys [messages], [participants]) and for a raw message (keys
    [sender_name], [content], [timestamp_ms], [share]). *)
Module Dict.
Local Unset Elimination Schemes.
Inductive t := mk {
  sender_name : option string;
  content : option string;
  timestamp_ms : option Z;
  share : option Share;
  messages : option (list t);
  participants : option (list string)
}.

(** [bool(d)]: a dict is true when it has a key (keys that the parser
    never reads are left out of the record). *)
Definition truthy (d : t) : bool :=
  negb (bool_decide (sender_name d = None) && bool_decide (content d = None) &&
        bool_decide (timestamp_ms d = None) &&
        match share d with None => true | _ => false end &&
        match messages d with None => true | _ => false end &&
        bool_decide (participants d = None)).
End Dict.

Abbreviation RawMessage := Dict.t.

(** What [json.load] followed by [_fix_encoding] yields for one file: an
    object or an array of objects. *)
Inductive Decoded :=
| JObject (d : Dict.t)
| JArray (l : list Dict.t).

Definition truthy (v : Decoded) : bool :=
  match v with
  | JObject d => Dict.truthy d
  | JArray l => match l with [] => false | _ => true end
  end.

(** The text [datetime.fromtimestamp(ms / 1000.0).isoformat()], kept
    symbolic: it depends on the local time zone. *)
Inductive IsoTime := isoformat_fromtimestamp (ms : Z).

(** A processed message: the dict with keys [sender], [content],
    [timestamp_ms] and [timestamp]. *)
Module Message.
Record t := mk {
  sender : string;
  content : string;
  timestamp_ms : Z;
  timestamp : option IsoTime
}.
End Message.

Abbreviation Conversation := (list Message.t).

Global Instance IsoTime_eq_dec : EqDecision IsoTime.
Proof. solve_decision. Defined.
Global Instance Message_eq_dec : EqDecision Message.t.
Proof. solve_decision. Defined.

(** The exceptions that leave the modelled methods. *)
Inductive Raised := AttributeError | FileNotFoundError | JSONDecodeError.

(** The set built by [set(msg['sender'] for msg in conversation)]. *)
Definition senders (conversation : Conversation) : gset string :=
  list_to_set (Message.sender <$> conversation).

(** ** The parser of [src/src/parser.py] *)

Module MessageParser.

(** The object: [self.user_mapping] (a dict from role to Instagram user
    name, in insertion order), [self.messages_data] and
    [self.conversations]. *)
Record t := mk {
  user_mapping : list (string * string);
  messages_data : option Decoded;
  conversations : list Conversation
}.

(** [__init__] *)
Definition init (user_mapping : list (string * string)) : t :=
  mk user_mapping None [].

(** [_replace_username]: the first role whose user name equals [username]
    up to case, else [username] itself. *)
Fixpoint _replace_username (user_mapping : list (string * string))
    (username : string) : string :=
  match user_mapping with
  | [] => username
  | (role, instagram_user) :: rest =>
      if bool_decide (Str.lower instagram_user = Str.lower username) then role
      else _replace_username rest username
  end.

(** [_should_group_messages] *)
Definition time_diff (msg1 msg2 : Message.t) : Q :=
  Z.abs (Message.timestamp_ms msg2 - Message.timestamp_ms msg1) # 1000.

Definition has_interchange (conversation : Conversation) : bool :=
  match conversation with
  | [] => false
  | _ => bool_decide (1 < size (senders conversation))%nat
  end.

Definition threshold (time_threshold_seconds : Z) (conversation : Conversation) : Z :=
  if has_interchange conversation then time_threshold_seconds else 60.

Definition _should_group_messages (msg1 msg2 : Message.t)
    (time_threshold_seconds : Z) (conversation : Conversation) : bool :=
  Qle_bool (time_diff msg1 msg2)
           (inject_Z (threshold time_threshold_seconds conversation)).

(** [_is_valid_conversation] *)
Definition _is_valid_conversation (conversation : Conversation)
    (interchange_only : bool) : bool :=
  if negb interchange_only then true
  else bool_decide (2 ≤ size (senders conversation))%nat.

(** [_group_consecutive_messages]: the loop state is [grouped] and
    [current_group]. *)
Definition group_body (st : list Message.t * option Message.t)
    (msg : Message.t) : list Message.t * option Message.t :=
  let '(grouped, current_group) := st in
  match current_group with
  | None => (grouped, Some msg)
  | Some g =>
      if bool_decide (Message.sender g = Message.sender msg) then
        (grouped,
         Some (Message.mk (Message.sender g)
                          (Message.content g +:+ ", " +:+ Message.content msg)
                          (Message.timestamp_ms msg)
                          (Message.timestamp msg)))
      else (grouped ++ [g], Some msg)
  end.

Definition _group_consecutive_messages (conversation : Conversation) : Conversation :=
  match conversation with
  | [] => conversation
  | _ =>
      let '(grouped, current_group) := foldl group_body ([], None) conversation in
      match current_group with
      | Some g => grouped ++ [g]
      | None => grouped
      end
  end.

(** The body of the loop of [parse_conversations] up to the partition: the
    processed message of a raw one. *)
Definition attachment_placeholder : string := "enviaste un archivo adjunto.".

Definition str_truthy (s : string) : bool :=
  match s with EmptyString => false | _ => true end.

Definition processed_content (sender : string) (message : RawMessage) : string :=
  let content_raw := default "" (Dict.content message) in
  let share_text := Dict.share message ≫= share_text in
  if bool_decide (Str.lower (Str.strip content_raw) = attachment_placeholder) then
    match share_text with
    | Some st =>
        if str_truthy st && str_truthy (Str.strip st)
        then "[image from " +:+ sender +:+ ": " +:+ Str.strip st +:+ "]"
        else "[image from " +:+ sender +:+ "]"
    | None => "[image from " +:+ sender +:+ "]"
    end
  else content_raw.

Definition processed_msg (user_mapping : list (string * string))
    (message : RawMessage) : Message.t :=
  let sender := _replace_username user_mapping (default "" (Dict.sender_name message)) in
  Message.mk sender
    (processed_content sender message)
    (default 0 (Dict.timestamp_ms message))
    (match Dict.timestamp_ms message with
     | Some ms => if bool_decide (ms = 0) then None
                  else Some (isoformat_fromtimestamp ms)
     | None => None
     end).

(** Closing the open conversation: [conversations.append] under the
    validity test. *)
Definition close (interchange_only : bool) (conversations : list Conversation)
    (current_conversation : Conversation) : list Conversation :=
  if _is_valid_conversation current_conversation interchange_only
  then conversations ++ [current_conversation]
  else conversations.

(** One turn of the [for] loop; the state is [conversations] and
    [current_conversation]. *)
Definition loop_body (user_mapping : list (string * string))
    (time_threshold_seconds : Z) (interchange_only : bool) (max_messages : Z)
    (st : list Conversation * Conversation) (message : RawMessage)
    : list Conversation * Conversation :=
  let '(conversations, current_conversation) := st in
  match Dict.content message with
  | None => st
  | Some _ =>
      let pm := processed_msg user_mapping message in
      match current_conversation with
      | [] => (conversations, current_conversation ++ [pm])
      | first :: rest =>
          if max_messages <=? Z.of_nat (length current_conversation) then
            (close interchange_only conversations current_conversation, [pm])
          else
            (* current_conversation[-1] *)
            let last_msg := List.last rest first in
            if _should_group_messages last_msg pm time_threshold_seconds
                 current_conversation
            then (conversations, current_conversation ++ [pm])
            else (close interchange_only conversations current_conversation, [pm])
      end
  end.

Definition timestamp_key (x : RawMessage) : Z := default 0 (Dict.timestamp_ms x).

Definition sorted_messages (messages : list RawMessage) : list RawMessage :=
  sorted (key_leb timestamp_key) messages.

(** The method after the sort: the loop, the closing of the last open
    conversation and the optional grouping pass. *)
Definition segment (user_mapping : list (string * string))
    (sorted_messages : list RawMessage)
    (time_threshold_seconds : Z) (interchange_only : bool) (max_messages : Z)
    (group_consecutive : bool) : list Conversation :=
  let '(conversations, current_conversation) :=
    foldl (loop_body user_mapping time_threshold_seconds interchange_only
             max_messages) ([], []) sorted_messages in
  let conversations :=
    match current_conversation with
    | [] => conversations
    | _ => close interchange_only conversations current_conversation
    end in
  if group_consecutive
  then _group_consecutive_messages <$> conversations
  else conversations.

(** [parse_conversations]: the returned list and the parser after the
    call.  [self.messages_data.get] raises on a non-empty array. *)
Definition parse_conversations (self : t) (time_threshold_seconds : Z)
    (interchange_only : bool) (max_messages : Z) (group_consecutive : bool)
    : Raised + (list Conversation * t) :=
  match messages_data self with
  | None => inr ([], self)
  | Some data =>
      if negb (truthy data) then inr ([], self)
      else match data with
           | JArray _ => inl AttributeError
           | JObject d =>
               let messages := default [] (Dict.messages d) in
               match sorted_messages messages with
               | [] => inr ([], self)
               | sorted_messages =>
                   let conversations :=
                     segment (user_mapping self) sorted_messages
                       time_threshold_seconds interchange_only max_messages
                       group_consecutive in
                   inr (conversations,
                        mk (user_mapping self) (messages_data self) conversations)
               end
           end
  end.

(** What [load_messages] finds at [filepath]: nothing, a file (its decoded
    content, [None] when it is not JSON) or a directory with its entries
    in the order of [os.listdir]. *)
Inductive Path :=
| NoSuchPath
| File (content : option Decoded)
| Directory (entries : list (string * option Decoded)).

(** The three cases of the directory branch for one decoded file. *)
Definition extract (file_data : Decoded) : list RawMessage :=
  match file_data with
  | JObject d =>
      match Dict.messages d with
      | Some ms => ms
      | None => [d]
      end
  | JArray l => l
  end.

Definition with_data (self : t) (data : Decoded) : t :=
  mk (user_mapping self) (Some data) (conversations self).

(** [load_messages] *)
Definition load_messages (self : t) (filepath : Path) : Raised + t :=
  match filepath with
  | NoSuchPath => inl FileNotFoundError
  | Directory entries =>
      let json_files := List.filter (λ f, Str.endswith f.1 ".json") entries in
      match json_files with
      | [] => inl FileNotFoundError
      | _ =>
          let all_messages :=
            foldl (λ acc f, match f.2 with
                            | Some file_data => acc ++ extract file_data
                            | None => acc
                            end)
                  [] (sorted (λ f g, String.leb f.1 g.1) json_files) in
          inr (with_data self
                 (JObject (Dict.mk None None None None (Some all_messages) None)))
      end
  | File None => inl JSONDecodeError
  | File (Some data) => inr (with_data self data)
  end.

(** [get_statistics]; [None] is the empty dict returned without data. *)
Record Statistics := {
  total_messages : nat;
  messages_with_content : nat;
  total_conversations : nat;
  participants : list string
}.

Definition get_statistics (self : t) : Raised + option Statistics :=
  match messages_data self with
  | None => inr None
  | Some data =>
      if negb (truthy data) then inr None
      else match data with
           | JArray _ => inl AttributeError
           | JObject d =>
               let messages := default [] (Dict.messages d) in
               inr (Some {|
                 total_messages := length messages;
                 messages_with_content :=
                   length (List.filter (λ msg, bool_decide (is_Some (Dict.content msg)))
                             messages);
                 total_conversations := length (conversations self);
                 participants := default [] (Dict.participants d)
               |})
           end
  end.

End MessageParser.

(** ** The older parser of [src/parser.py]

    The root-level module has the same object and [_replace_username]; its
    [_should_group_messages] has one threshold and its
    [parse_conversations] neither cap nor validity test. *)

Module Legacy.

Definition _should_group_messages (msg1 msg2 : Message.t)
    (time_threshold_seconds : Z) : bool :=
  Qle_bool (MessageParser.time_diff msg1 msg2) (inject_Z time_threshold_seconds).

Definition processed_msg (user_mapping : list (string * string))
    (message : RawMessage) : Message.t :=
  Message.mk
    (MessageParser._replace_username user_mapping
       (default "" (Dict.sender_name message)))
    (default "" (Dict.content message))
    (default 0 (Dict.timestamp_ms message))
    (match Dict.timestamp_ms message with
     | Some ms => if bool_decide (ms = 0) then None
                  else Some (isoformat_fromtimestamp ms)
     | None => None
     end).

Definition loop_body (user_mapping : list (string * string))
    (time_threshold_seconds : Z)
    (st : list Conversation * Conversation) (message : RawMessage)
    : list Conversation * Conversation :=
  let '(conversations, current_conversation) := st in
  match Dict.content message with
  | None => st
  | Some _ =>
      let pm := processed_msg user_mapping message in
      match current_conversation with
      | [] => (conversations, current_conversation ++ [pm])
      | first :: rest =>
          let last_msg := List.last rest first in
          if _should_group_messages last_msg pm time_threshold_seconds
          then (conversations, current_conversation ++ [pm])
          else (conversations ++ [current_conversation], [pm])
      end
  end.

Definition parse_conversations (self : MessageParser.t)
    (time_threshold_seconds : Z) : Raised + (list Conversation * MessageParser.t) :=
  match MessageParser.messages_data self with
  | None => inr ([], self)
  | Some data =>
      if negb (truthy data) then inr ([], self)
      else match data with
           | JArray _ => inl AttributeError
           | JObject d =>
               let messages := default [] (Dict.messages d) in
               match MessageParser.sorted_messages messages with
               | [] => inr ([], self)
               | sorted_messages =>
                   let '(conversations, current_conversation) :=
                     foldl (loop_body (MessageParser.user_mapping self)
                              time_threshold_seconds) ([], []) sorted_messages in
                   let conversations :=
                     match current_conversation with
                     | [] => conversations
                     | _ => conversations ++ [current_conversation]
                     end in
                   inr (conversations,
                        MessageParser.mk (MessageParser.user_mapping self)
                          (MessageParser.messages_data self) conversations)
               end
           end
  end.

End Legacy.

(** ** Definitions for the statements *)

(** The messages that pass the content test of the loop, and their
    processed form in loop order. *)
Definition with_content (messages : list RawMessage) : list RawMessage :=
  filter (λ m, is_Some (Dict.content m)) messages.

Definition processed_stream (user_mapping : list (string * string))
    (sorted_messages : list RawMessage) : list Message.t :=
  MessageParser.processed_msg user_mapping <$> with_content sorted_messages.

(** The list that [self.messages_data.get('messages', [])] reads when the
    method returns. *)
Definition loaded_messages (self : MessageParser.t) : list RawMessage :=
  match MessageParser.messages_data self with
  | Some (JObject d) => default [] (Dict.messages d)
  | _ => []
  end.

(** A parser that holds an export object with the given message list. *)
Definition export_of (messages : list RawMessage) : Decoded :=
  JObject (Dict.mk None None None None (Some messages) None).

Definition parser_of (user_mapping : list (string * string))
    (messages : list RawMessage) : MessageParser.t :=
  MessageParser.mk user_mapping (Some (export_of messages)) [].

(** The grouping pass in the words of its description: the conversation is
    cut into its maximal runs of adjacent messages of one sender, a run
    being its first message and the messages after it, and every run
    becomes one message. *)
Fixpoint runs (conversation : Conversation) : list (Message.t * list Message.t) :=
  match conversation with
  | [] => []
  | m :: rest =>
      match runs rest with
      | (m', run) :: others =>
          if bool_decide (Message.sender m = Message.sender m')
          then (m, m' :: run) :: others
          else (m, []) :: (m', run) :: others
      | [] => [(m, [])]
      end
  end.

Definition merge_run (run : Message.t * list Message.t) : Message.t :=
  let '(first, rest) := run in
  let last_msg := List.last rest first in
  Message.mk (Message.sender first)
    (Str.join ", " (Message.content <$> first :: rest))
    (Message.timestamp_ms last_msg) (Message.timestamp last_msg).

Definition merged_runs (conversation : Conversation) : Conversation :=
  merge_run <$> runs conversation.

(** The grouping loop seen from the open group [g]: what it still emits on
    the messages [l]. *)
Definition absorb (g msg : Message.t) : Message.t :=
  Message.mk (Message.sender g)
    (Message.content g +:+ ", " +:+ Message.content msg)
    (Message.timestamp_ms msg) (Message.timestamp msg).

Fixpoint group_from (g : Message.t) (l : list Message.t) : list Message.t :=
  match l with
  | [] => [g]
  | m :: l' =>
      if bool_decide (Message.sender g = Message.sender m)
      then group_from (absorb g m) l'
      else g :: group_from m l'
  end.

(** No two neighbours of a list of messages have the same sender. *)
Fixpoint adjacent_differ (l : list Message.t) : Prop :=
  match l with
  | a :: (b :: _) as t => Message.sender a ≠ Message.sender b ∧ adjacent_differ t
  | _ => True
  end.

(** What holds of [conversations] and [current_conversation] after the loop
    has consumed [pre]. *)
Record loop_inv (um : list (string * string)) (io : bool) (mm : Z)
    (pre : list RawMessage) (st : list Conversation * Conversation) : Prop := {
  inv_sublist : concat st.1 ++ st.2 `sublist_of` processed_stream um pre;
  inv_all : io = false → concat st.1 ++ st.2 = processed_stream um pre;
  inv_nonempty : Forall (λ c, c ≠ []) st.1;
  inv_open : processed_stream um pre ≠ [] → st.2 ≠ [];
  inv_cap : 1 ≤ mm →
    Forall (λ c : Conversation, Z.of_nat (length c) ≤ mm) st.1 ∧
    Z.of_nat (length st.2) ≤ mm;
  inv_valid : io = true → Forall (λ c, 2 ≤ size (senders c))%nat st.1
}.

(** What holds of the list before the grouping pass. *)
Record segment_spec (um : list (string * string)) (io : bool) (mm : Z)
    (l : list RawMessage) (out : list Conversation) : Prop := {
  seg_sublist : concat out `sublist_of` processed_stream um l;
  seg_all : io = false → concat out = processed_stream um l;
  seg_nonempty : Forall (λ c, c ≠ []) out;
  seg_cap : 1 ≤ mm → Forall (λ c : Conversation, Z.of_nat (length c) ≤ mm) out;
  seg_valid : io = true → Forall (λ c, 2 ≤ size (senders c))%nat out
}.

(** ** Example inputs *)

Definition raw (sender_name content : string) (timestamp_ms : Z) : RawMessage :=
  Dict.mk (Some sender_name) (Some content) (Some timestamp_ms) None None None.

(** The mapping and the four messages of [test.py]: two senders in turn at
    0 s, 15 s, 20 s and 90 s after [t0] (in milliseconds). *)
Definition test_mapping : list (string * string) :=
  [("user", "User Name"); ("friend", "Other Person")].

Definition four_messages (t0 : Z) : list RawMessage :=
  [raw "User Name" "Hey! How are you?" t0;
   raw "Other Person" "I am good, thanks!" (t0 + 15000);
   raw "User Name" "What are you up to?" (t0 + 20000);
   raw "Other Person" "Just got home" (t0 + 90000)].

Definition example_parser : MessageParser.t :=
  parser_of test_mapping (four_messages 1700000000000).

(** ** Further definitions for the statements *)

(** Every two neighbours of a list of messages are at most [bound]
    milliseconds apart. *)
Fixpoint gaps_within (bound : Z) (l : list Message.t) : Prop :=
  match l with
  | a :: (b :: _) as t =>
      Z.abs (Message.timestamp_ms b - Message.timestamp_ms a) ≤ bound ∧
      gaps_within bound t
  | _ => True
  end.

(** No entry of the mapping names [username] up to case. *)
Definition unmapped (user_mapping : list (string * string)) (username : string) : Prop :=
  Forall (λ e, Str.lower e.2 ≠ Str.lower username) user_mapping.

(** Between every two neighbouring conversations of a list, the last message
    of the first and the first message of the second are more than [bound]
    milliseconds apart. *)
Fixpoint breaks_between (bound : Z) (ls : list Conversation) : Prop :=
  match ls with
  | c1 :: (c2 :: _) as t =>
      (∀ a b, last c1 = Some a → head c2 = Some b →
         bound < Z.abs (Message.timestamp_ms b - Message.timestamp_ms a)) ∧
      breaks_between bound t
  | _ => True
  end.

(** The number of neighbours of a list of messages that are more than
    [bound] milliseconds apart. *)
Fixpoint count_breaks (bound : Z) (l : list Message.t) : nat :=
  match l with
  | a :: (b :: _) as t =>
      (if bool_decide
            (bound < Z.abs (Message.timestamp_ms b - Message.timestamp_ms a))
       then 1 else 0) + count_breaks bound t
  | _ => 0
  end.

(** The processed messages of the older parser in loop order. *)
Definition legacy_stream (user_mapping : list (string * string))
    (sorted_messages : list RawMessage) : list Message.t :=
  Legacy.processed_msg user_mapping <$> with_content sorted_messages.

(** The older method after the sort. *)
Definition legacy_segment (user_mapping : list (string * string))
    (sorted_messages : list RawMessage) (time_threshold_seconds : Z)
    : list Conversation :=
  let '(conversations, current_conversation) :=
    foldl (Legacy.loop_body user_mapping time_threshold_seconds) ([], [])
      sorted_messages in
  match current_conversation with
  | [] => conversations
  | _ => conversations ++ [current_conversation]
  end.

(** ** The transformer of [src/transformer.py]

    The module imports [MessageParser] from the root-level [parser.py]: its
    parser is the older one.  [load_messages] of that parser opens the path
    as a file whatever it is; [open] on a directory raises an [OSError]
    ([IsADirectoryError] or [PermissionError], by platform). *)

Module LegacyIO.

Inductive Exception :=
| Std (e : Raised)
| OSError.

(** [load_messages] of [src/parser.py] *)
Definition load_messages (self : MessageParser.t) (filepath : MessageParser.Path)
    : Exception + MessageParser.t :=
  match filepath with
  | MessageParser.NoSuchPath => inl (Std FileNotFoundError)
  | MessageParser.Directory _ => inl OSError
  | MessageParser.File None => inl (Std JSONDecodeError)
  | MessageParser.File (Some data) => inr (MessageParser.with_data self data)
  end.

End LegacyIO.

Module MessageTransformer.

(** What [_load_user_mapping] finds at the path of the users file. *)
Inductive UsersFile :=
| UsersMissing
| UsersNotJson
| UsersMapping (mapping : list (string * string)).

(** [_load_user_mapping]: the two caught exceptions give the empty
    mapping. *)
Definition _load_user_mapping (filepath : UsersFile) : list (string * string) :=
  match filepath with
  | UsersMapping mapping => mapping
  | UsersMissing | UsersNotJson => []
  end.

Record t := mk {
  user_mapping : list (string * string);
  parser : MessageParser.t
}.

(** [__init__] *)
Definition init (user_mapping_file : UsersFile) : t :=
  let user_mapping := _load_user_mapping user_mapping_file in
  mk user_mapping (MessageParser.init user_mapping).

(** [load_and_parse] *)
Definition load_and_parse (self : t) (messages_file : MessageParser.Path)
    (time_threshold_seconds : Z) : LegacyIO.Exception + t :=
  match LegacyIO.load_messages (parser self) messages_file with
  | inl e => inl e
  | inr loaded =>
      match Legacy.parse_conversations loaded time_threshold_seconds with
      | inl e => inl (LegacyIO.Std e)
      | inr (_, parsed) => inr (mk (user_mapping self) parsed)
      end
  end.

(** [_map_sender_to_role] *)
Definition _map_sender_to_role (sender : string) : string :=
  if bool_decide (Str.lower sender = "user") then "user" else "assistant".

(** One [{'role': ..., 'content': ...}] and one [{'messages': [...]}]. *)
Record ChatMessage := { role : string; content : string }.
Record ChatRecord := { messages : list ChatMessage }.

Definition chat_message (msg : Message.t) : ChatMessage :=
  {| role := _map_sender_to_role (Message.sender msg);
     content := Message.content msg |}.

(** [to_chatml_format]: the loop over [self.parser.get_conversations()]. *)
Definition chatml_body (chatml_data : list ChatRecord)
    (conversation : Conversation) : list ChatRecord :=
  match chat_message <$> conversation with
  | [] => chatml_data
  | messages => chatml_data ++ [{| messages := messages |}]
  end.

Definition to_chatml_format (self : t) : list ChatRecord :=
  foldl chatml_body [] (MessageParser.conversations (parser self)).

(** [get_statistics] *)
Definition get_statistics (self : t) : Raised + option MessageParser.Statistics :=
  MessageParser.get_statistics (parser self).

End MessageTransformer.

(** ** [_fix_encoding]

    Here a [str] is the list of its code points and a [bytes] the list of
    its bytes, both as numbers. *)

Module Encoding.

(** [s.encode('latin1')]: the code points as bytes, [None] for
    [UnicodeEncodeError] (a code point above 255). *)
Fixpoint encode_latin1 (s : list N) : option (list N) :=
  match s with
  | [] => Some []
  | c :: s' =>
      if (c <=? 255)%N then cons c <$> encode_latin1 s' else None
  end.

Definition in_range (lo hi b : N) : bool := ((lo <=? b) && (b <=? hi))%N.

(** [b.decode('utf-8')], strict: the well-formed byte sequences only (no
    overlong form, no surrogate, nothing above U+10FFFF); [None] for
    [UnicodeDecodeError]. *)
Fixpoint decode_utf8 (bs : list N) : option (list N) :=
  match bs with
  | [] => Some []
  | b1 :: r1 =>
      if (b1 <? 128)%N then cons b1 <$> decode_utf8 r1
      else if in_range 194 223 b1 then
        match r1 with
        | b2 :: r2 =>
            if in_range 128 191 b2
            then cons ((b1 - 192) * 64 + (b2 - 128))%N <$> decode_utf8 r2
            else None
        | _ => None
        end
      else if in_range 224 239 b1 then
        match r1 with
        | b2 :: b3 :: r3 =>
            if in_range (if (b1 =? 224)%N then 160 else 128)
                        (if (b1 =? 237)%N then 159 else 191) b2
               && in_range 128 191 b3
            then cons ((b1 - 224) * 4096 + (b2 - 128) * 64 + (b3 - 128))%N
                   <$> decode_utf8 r3
            else None
        | _ => None
        end
      else if in_range 240 244 b1 then
        match r1 with
        | b2 :: b3 :: b4 :: r4 =>
            if in_range (if (b1 =? 240)%N then 144 else 128)
                        (if (b1 =? 244)%N then 143 else 191) b2
               && in_range 128 191 b3 && in_range 128 191 b4
            then cons ((b1 - 240) * 262144 + (b2 - 128) * 4096 +
                       (b3 - 128) * 64 + (b4 - 128))%N
                   <$> decode_utf8 r4
            else None
        | _ => None
        end
      else None
  end.

(** The [str] branch of [_fix_encoding]: both exceptions give the string
    back. *)
Definition fix_str (obj : list N) : list N :=
  match encode_latin1 obj with
  | Some bs =>
      match decode_utf8 bs with
      | Some s => s
      | None => obj
      end
  | None => obj
  end.

(** A decoded JSON value: a string, an object (its keys in order), an
    array, or anything else. *)
Inductive Scalar := SNone | SBool (b : bool) | SInt (z : Z).

Local Unset Elimination Schemes.
Inductive Json :=
| JStr (s : list N)
| JDict (items : list (list N * Json))
| JList (l : list Json)
| JOther (v : Scalar).

(** [_fix_encoding] *)
Fixpoint _fix_encoding (obj : Json) : Json :=
  match obj with
  | JStr s => JStr (fix_str s)
  | JDict items =>
      JDict ((λ item, (item.1, _fix_encoding item.2)) <$> items)
  | JList l => JList (_fix_encoding <$> l)
  | JOther v => JOther v
  end.

(** For the statements: a Unicode scalar value, the UTF-8 bytes of one, and
    a text garbled the way the exports are, every byte of its UTF-8 form
    read as one character. *)
Definition scalar (c : N) : Prop :=
  ((c < 55296)%N ∨ (57343 < c)%N) ∧ (c < 1114112)%N.

Definition encode_char (c : N) : list N :=
  if (c <? 128)%N then [c]
  else if (c <? 2048)%N then [192 + c / 64; 128 + c mod 64]%N
  else if (c <? 65536)%N
       then [224 + c / 4096; 128 + (c / 64) mod 64; 128 + c mod 64]%N
  else [240 + c / 262144; 128 + (c / 4096) mod 64;
        128 + (c / 64) mod 64; 128 + c mod 64]%N.

Definition garbled (text : list N) : list N := concat (encode_char <$> text).

(** The values of a JSON tree garbled, the keys not; and the trees whose
    string values are texts of scalar values. *)
Fixpoint garbled_values (obj : Json) : Json :=
  match obj with
  | JStr s => JStr (garbled s)
  | JDict items =>
      JDict ((λ item, (item.1, garbled_values item.2)) <$> items)
  | JList l => JList (garbled_values <$> l)
  | JOther v => JOther v
  end.

Fixpoint texts (obj : Json) : Prop :=
  match obj with
  | JStr s => Forall scalar s
  | JDict items => foldr (λ item P, texts item.2 ∧ P) True items
  | JList l => foldr (λ x P, texts x ∧ P) True l
  | JOther _ => True
  end.

End Encoding.

(** * Properties *)

Import MessageParser.

(** ** The sort *)

Section SortedFacts.
Context {A : Type} (key : A → Z).

Local Abbreviation leb := (key_leb key).

Lemma insert_sorted_perm x l : insert_sorted leb x l ≡ₚ x :: l.
Proof.
  induction l as [|y l IH]; simpl; [done|].
  destruct (leb x y); [done|].
  rewrite IH. apply Permutation_swap.
Qed.

Lemma sorted_perm l : sorted leb l ≡ₚ l.
Proof.
  induction l as [|x l IH]; [done|].
  change (sorted leb (x :: l)) with (insert_sorted leb x (sorted leb l)).
  by rewrite insert_sorted_perm, IH.
Qed.

Lemma insert_sorted_ordered x l :
  StronglySorted (λ a b, key a ≤ key b) l →
  StronglySorted (λ a b, key a ≤ key b) (insert_sorted leb x l).
Proof.
  induction 1 as [|y l Hl IH Hy]; simpl.
  - repeat constructor.
  - unfold key_leb at 1. destruct (Z.leb_spec (key x) (key y)) as [Hxy|Hxy].
    + constructor; [by constructor|].
      constructor; [done|].
      eapply Forall_impl; [exact Hy|]. simpl. intros; lia.
    + constructor; [done|].
      rewrite insert_sorted_perm. constructor; [lia|done].
Qed.

Lemma sorted_ordered l : StronglySorted (λ a b, key a ≤ key b) (sorted leb l).
Proof.
  induction l as [|x l IH]; [constructor|].
  change (sorted leb (x :: l)) with (insert_sorted leb x (sorted leb l)).
  by apply insert_sorted_ordered.
Qed.

(** Stability: the elements of one key keep their input order. *)
Lemma insert_sorted_stable k x l :
  StronglySorted (λ a b, key a ≤ key b) l →
  filter (λ a, key a = k) (insert_sorted leb x l) =
  filter (λ a, key a = k) (x :: l).
Proof.
  induction 1 as [|y l Hl IH Hy]; simpl; [done|].
  unfold key_leb at 1. destruct (Z.leb_spec (key x) (key y)) as [Hxy|Hxy]; [done|].
  rewrite !filter_cons. rewrite filter_cons in IH.
  destruct (decide (key y = k)) as [Hk|Hk], (decide (key x = k)) as [Hx|Hx];
    rewrite IH; try done.
  lia.
Qed.

Lemma sorted_stable k l :
  filter (λ a, key a = k) (sorted leb l) = filter (λ a, key a = k) l.
Proof.
  induction l as [|x l IH]; [done|].
  change (sorted leb (x :: l)) with (insert_sorted leb x (sorted leb l)).
  rewrite insert_sorted_stable by apply sorted_ordered.
  by rewrite !filter_cons, IH.
Qed.

End SortedFacts.

(** ** Folding with an invariant over the consumed input *)

Lemma foldl_inv {S A} (f : S → A → S) (Inv : list A → S → Prop) s0 l :
  Inv [] s0 →
  (∀ pre x s, Inv pre s → Inv (pre ++ [x]) (f s x)) →
  Inv l (foldl f s0 l).
Proof.
  intros H0 Hstep.
  cut (∀ pre s, Inv pre s → Inv (pre ++ l) (foldl f s l)).
  { intros H. apply (H [] s0 H0). }
  induction l as [|x l IH]; intros pre s Hs; simpl.
  - by rewrite app_nil_r.
  - rewrite (cons_middle x pre l), app_assoc. apply IH, Hstep, Hs.
Qed.

(** ** The loop body, case by case *)

Lemma last_default_cons {A} (y d : A) rest :
  List.last (y :: rest) d = List.last rest y.
Proof.
  revert y d. induction rest as [|z rest IH]; intros y d; [done|].
  change (List.last (y :: z :: rest) d) with (List.last (z :: rest) d).
  by rewrite (IH z d), (IH z y).
Qed.

Lemma last_cons_last {A} (first : A) rest :
  last (first :: rest) = Some (List.last rest first).
Proof.
  revert first. induction rest as [|y rest IH]; intros first; [done|].
  by rewrite last_cons_cons, IH, last_default_cons.
Qed.

Lemma has_interchange_size conversation :
  has_interchange conversation = bool_decide (2 ≤ size (senders conversation))%nat.
Proof.
  destruct conversation as [|m l]; unfold has_interchange.
  - change (senders []) with (∅ : gset string).
    rewrite size_empty. by rewrite bool_decide_eq_false_2 by lia.
  - apply bool_decide_ext. lia.
Qed.

Lemma loop_body_skip um T io mm st message :
  Dict.content message = None → loop_body um T io mm st message = st.
Proof. intros H. destruct st. unfold loop_body. by rewrite H. Qed.

Lemma loop_body_first um T io mm convs message c :
  Dict.content message = Some c →
  loop_body um T io mm (convs, []) message = (convs, [processed_msg um message]).
Proof. intros H. unfold loop_body. by rewrite H. Qed.

Lemma loop_body_full um T io mm convs cur message c :
  Dict.content message = Some c → cur ≠ [] → mm ≤ Z.of_nat (length cur) →
  loop_body um T io mm (convs, cur) message =
    (close io convs cur, [processed_msg um message]).
Proof.
  intros H Hne Hfull. unfold loop_body. rewrite H.
  destruct cur as [|first rest]; [done|].
  by rewrite (proj2 (Z.leb_le _ _)) by done.
Qed.

Lemma loop_body_open um T io mm convs cur last_msg message c :
  Dict.content message = Some c → last cur = Some last_msg →
  Z.of_nat (length cur) < mm →
  loop_body um T io mm (convs, cur) message =
    if _should_group_messages last_msg (processed_msg um message) T cur
    then (convs, cur ++ [processed_msg um message])
    else (close io convs cur, [processed_msg um message]).
Proof.
  intros H Hlast Hlen. unfold loop_body. rewrite H.
  destruct cur as [|first rest]; [done|].
  rewrite last_cons_last in Hlast. injection Hlast as <-.
  by rewrite (proj2 (Z.leb_gt _ _)) by done.
Qed.

(** Every turn on a message with content either appends it or closes the
    open conversation and starts the next one with it. *)
Lemma loop_body_cases um T io mm convs cur message c :
  Dict.content message = Some c →
  (loop_body um T io mm (convs, cur) message =
     (convs, cur ++ [processed_msg um message]) ∧
   (cur = [] ∨ Z.of_nat (length cur) < mm)) ∨
  (loop_body um T io mm (convs, cur) message =
     (close io convs cur, [processed_msg um message]) ∧ cur ≠ []).
Proof.
  intros H.
  destruct (decide (cur = [])) as [->|Hne].
  { left. split; [|by left]. by erewrite loop_body_first. }
  destruct (Z.le_gt_cases mm (Z.of_nat (length cur))) as [Hfull|Hopen].
  { right. split; [|done]. by erewrite loop_body_full. }
  assert (is_Some (last cur)) as [last_msg Hlast] by by apply last_is_Some.
  erewrite loop_body_open by done.
  destruct _should_group_messages; [left|right]; split; auto.
Qed.

(** C1. In the streaming partition, for a message with content that meets a
    non-empty open conversation below the cap: it is appended exactly when
    the gap [|current.timestamp_ms - last.timestamp_ms| / 1000] is at most
    the effective threshold, which is [time_threshold_seconds] when the
    open conversation has at least 2 distinct senders and the constant 60
    otherwise; when the gap is larger, the open conversation is closed
    (emitted only if it passes the validity test) and a new one starts with
    the message. *)
Theorem gap_rule um T io mm convs cur last_msg message c :
  Dict.content message = Some c →
  last cur = Some last_msg →
  Z.of_nat (length cur) < mm →
  let pm := processed_msg um message in
  let gap :=
    (Z.abs (Message.timestamp_ms pm - Message.timestamp_ms last_msg) # 1000)%Q in
  let effective :=
    if bool_decide (2 ≤ size (senders cur))%nat then T else 60 in
  (loop_body um T io mm (convs, cur) message = (convs, cur ++ [pm])
     ↔ (gap <= inject_Z effective)%Q) ∧
  (¬ (gap <= inject_Z effective)%Q →
   loop_body um T io mm (convs, cur) message =
     (if _is_valid_conversation cur io then convs ++ [cur] else convs, [pm])).
Proof.
  intros Hc Hlast Hlen pm gap effective.
  erewrite loop_body_open by done. fold pm.
  unfold _should_group_messages, threshold, time_diff.
  rewrite has_interchange_size. fold effective. fold gap.
  destruct (Qle_bool gap (inject_Z effective)) eqn:Hq.
  - apply Qle_bool_iff in Hq. split; [tauto|]. intros Hn. by destruct Hn.
  - assert (Hn : ¬ (gap <= inject_Z effective)%Q).
    { intros Hle. apply Qle_bool_iff in Hle. congruence. }
    split; [|done]. split; [|tauto].
    intros Heq. injection Heq as _ Heq.
    apply (f_equal length) in Heq. rewrite length_app in Heq. simpl in Heq.
    destruct cur; [done|]. simpl in Heq. lia.
Qed.

Lemma gap_rule_witness :
  let m0 := raw "User Name" "Hey! How are you?" 1700000000000 in
  let m1 := raw "Other Person" "I am good, thanks!" 1700000015000 in
  let p0 := processed_msg test_mapping m0 in
  Dict.content m1 = Some "I am good, thanks!" ∧
  last [p0] = Some p0 ∧
  Z.of_nat (length [p0]) < 10 ∧
  loop_body test_mapping 10 true 10 ([], [p0]) m1 =
    ([], [p0] ++ [processed_msg test_mapping m1]).
Proof.
  intros m0 m1 p0.
  split; [reflexivity|]. split; [reflexivity|]. split; [reflexivity|].
  apply (proj1 (gap_rule test_mapping 10 true 10 [] [p0] p0 m1
                  "I am good, thanks!" eq_refl eq_refl eq_refl)).
  apply Qle_bool_iff. vm_compute. reflexivity.
Defined.

(** ** Invariants of the loop *)

Lemma close_cases io convs cur :
  (close io convs cur = convs ++ [cur] ∧
   (io = true → 2 ≤ size (senders cur))%nat) ∨
  (close io convs cur = convs ∧ io = true).
Proof.
  unfold close, _is_valid_conversation. destruct io; simpl.
  - case_bool_decide; [left|right]; auto.
  - left. split; [done|]. discriminate.
Qed.

Lemma processed_stream_snoc_skip um pre x :
  Dict.content x = None → processed_stream um (pre ++ [x]) = processed_stream um pre.
Proof.
  intros H. unfold processed_stream, with_content.
  rewrite filter_app, filter_cons_False, filter_nil, app_nil_r; [done|].
  rewrite H. by intros [? ?].
Qed.

Lemma processed_stream_snoc um pre x c :
  Dict.content x = Some c →
  processed_stream um (pre ++ [x]) = processed_stream um pre ++ [processed_msg um x].
Proof.
  intros H. unfold processed_stream, with_content.
  rewrite filter_app, filter_cons_True, filter_nil, fmap_app; [done|].
  rewrite H. by eexists.
Qed.


Lemma loop_inv_init um io mm : loop_inv um io mm [] ([], []).
Proof.
  split; simpl; try done.
  intros Hmm. split; [by apply Forall_nil_2|lia].
Qed.

Lemma loop_inv_step um T io mm pre x st :
  loop_inv um io mm pre st →
  loop_inv um io mm (pre ++ [x]) (loop_body um T io mm st x).
Proof.
  destruct st as [convs cur]. intros [Hsub Hall Hne Hopen Hcap Hvalid].
  simpl in Hsub, Hall, Hne, Hopen, Hcap, Hvalid.
  destruct (Dict.content x) as [c|] eqn:Hc.
  2:{ rewrite loop_body_skip by done.
      split; simpl; rewrite ?processed_stream_snoc_skip by done; done. }
  pose proof (processed_stream_snoc um pre x c Hc) as Hsnoc.
  assert (Hpm : processed_stream um pre ++ [processed_msg um x] ≠ []).
  { by destruct (processed_stream um pre). }
  destruct (loop_body_cases um T io mm convs cur x c Hc)
    as [[-> Hlen]|[-> Hcur]].
  - split; simpl; rewrite ?Hsnoc.
    + rewrite app_assoc. by apply sublist_app.
    + intros Hio. by rewrite app_assoc, Hall.
    + done.
    + intros _. by destruct cur.
    + intros Hmm. destruct (Hcap Hmm) as [Hconv Hcurlen]. split; [done|].
      rewrite length_app; simpl. destruct Hlen as [->|Hlen]; simpl; lia.
    + done.
  - destruct (close_cases io convs cur) as [[-> Hv]|[-> Hio]].
    + split; simpl; rewrite ?Hsnoc.
      * rewrite concat_app; simpl. rewrite app_nil_r, <-app_assoc, app_assoc.
        by apply sublist_app.
      * intros Hio. rewrite concat_app; simpl.
        by rewrite app_nil_r, <-app_assoc, app_assoc, Hall.
      * apply Forall_app. split; [done|]. by constructor.
      * done.
      * intros Hmm. destruct (Hcap Hmm) as [Hconv Hcurlen]. split; [|simpl; lia].
        apply Forall_app. split; [done|]. by constructor.
      * intros Hio. apply Forall_app. split; [auto|]. constructor; auto.
    + split; simpl; rewrite ?Hsnoc.
      * apply sublist_app; [|done].
        etrans; [|exact Hsub]. by apply sublist_inserts_r.
      * congruence.
      * done.
      * done.
      * intros Hmm. destruct (Hcap Hmm) as [Hconv Hcurlen]. split; [done|simpl; lia].
      * done.
Qed.

Lemma loop_inv_foldl um T io mm l :
  loop_inv um io mm l (foldl (loop_body um T io mm) ([], []) l).
Proof.
  apply (foldl_inv _ (loop_inv um io mm)).
  - apply loop_inv_init.
  - intros pre x s. apply loop_inv_step.
Qed.

(** ** The grouping pass *)

Lemma append_assoc (a b c : string) : (a +:+ b) +:+ c = a +:+ b +:+ c.
Proof.
  induction a as [|x a IH]; [done|].
  change (String x ((a +:+ b) +:+ c) = String x (a +:+ b +:+ c)).
  by rewrite IH.
Qed.

Lemma absorb_assoc a m x : absorb (absorb a m) x = absorb a (absorb m x).
Proof.
  unfold absorb.
  cbn [Message.sender Message.content Message.timestamp_ms Message.timestamp].
  by rewrite !append_assoc.
Qed.

Lemma foldl_group_body grouped g l :
  ∃ grouped' g',
    foldl group_body (grouped, Some g) l = (grouped', Some g') ∧
    grouped' ++ [g'] = grouped ++ group_from g l.
Proof.
  revert grouped g. induction l as [|m l IH]; intros grouped g; simpl.
  - by exists grouped, g.
  - case_bool_decide.
    + apply IH.
    + destruct (IH (grouped ++ [g]) m) as (gr & g' & -> & Heq).
      exists gr, g'. split; [done|]. by rewrite Heq, <-app_assoc.
Qed.

Lemma group_consecutive_from m l :
  _group_consecutive_messages (m :: l) = group_from m l.
Proof.
  unfold _group_consecutive_messages.
  change (foldl group_body ([], None) (m :: l))
    with (foldl group_body ([], Some m) l).
  by destruct (foldl_group_body [] m l) as (gr & g' & -> & ->).
Qed.

Lemma group_from_absorb a m l :
  Message.sender a = Message.sender m →
  group_from (absorb a m) l =
    match group_from m l with
    | h :: t => absorb a h :: t
    | [] => []
    end.
Proof.
  revert m. induction l as [|x l IH]; intros m Hs; simpl; [done|].
  rewrite Hs. case_bool_decide.
  - rewrite absorb_assoc. by apply IH.
  - done.
Qed.

Lemma runs_cons m l : ∃ run others, runs (m :: l) = (m, run) :: others.
Proof.
  simpl. destruct (runs l) as [|[m' run] others]; [by eexists _, _|].
  case_bool_decide; by eexists _, _.
Qed.

Lemma merge_run_cons m x run :
  merge_run (m, x :: run) = absorb m (merge_run (x, run)).
Proof.
  unfold merge_run, absorb. cbn [Message.sender Message.content
    Message.timestamp_ms Message.timestamp].
  by rewrite last_default_cons.
Qed.

Lemma group_from_runs m l : group_from m l = merged_runs (m :: l).
Proof.
  unfold merged_runs.
  revert m. induction l as [|x l IH]; intros m.
  - by destruct m.
  - change (group_from m (x :: l)) with
      (if bool_decide (Message.sender m = Message.sender x)
       then group_from (absorb m x) l else m :: group_from x l).
    change (runs (m :: x :: l)) with
      (match runs (x :: l) with
       | (m', run) :: others =>
           if bool_decide (Message.sender m = Message.sender m')
           then (m, m' :: run) :: others
           else (m, []) :: (m', run) :: others
       | [] => [(m, [])]
       end).
    destruct (runs_cons x l) as (run & others & Hr).
    rewrite Hr in *. case_bool_decide as Hs.
    + rewrite group_from_absorb by done. rewrite IH, Hr.
      by rewrite !fmap_cons, merge_run_cons.
    + rewrite IH, Hr, !fmap_cons. f_equal. by destruct m.
Qed.

Lemma group_consecutive_runs conversation :
  _group_consecutive_messages conversation = merged_runs conversation.
Proof.
  destruct conversation as [|m l]; [done|].
  by rewrite group_consecutive_from, group_from_runs.
Qed.

(** The runs are the maximal runs: they partition the conversation, each
    has one sender, and neighbouring runs have different senders. *)
Lemma runs_concat conversation :
  concat ((λ r, r.1 :: r.2) <$> runs conversation) = conversation.
Proof.
  induction conversation as [|m l IH]; [done|].
  simpl. destruct (runs l) as [|[m' run] others]; simpl in *.
  - by rewrite <-IH.
  - case_bool_decide; simpl; by rewrite <-IH.
Qed.

Lemma runs_one_sender conversation :
  Forall (λ r, Forall (λ m, Message.sender m = Message.sender r.1) r.2)
         (runs conversation).
Proof.
  induction conversation as [|m l IH]; simpl; [constructor|].
  destruct (runs l) as [|[m' run] others]; [by repeat constructor|].
  apply Forall_cons in IH as [Hrun Hothers]. simpl in Hrun.
  case_bool_decide as Hs.
  - constructor; [|done]. simpl. constructor; [done|].
    eapply Forall_impl; [exact Hrun|]. simpl. congruence.
  - constructor; [by constructor|]. by constructor.
Qed.

Lemma runs_maximal conversation i r1 r2 :
  runs conversation !! i = Some r1 → runs conversation !! S i = Some r2 →
  Message.sender r1.1 ≠ Message.sender r2.1.
Proof.
  revert i r1 r2.
  induction conversation as [|m l IH]; intros i r1 r2; simpl; [done|].
  destruct (runs l) as [|[m' run] others]; [by destruct i|].
  case_bool_decide as Hs.
  - destruct i as [|i]; simpl.
    + intros [= <-] H2. simpl. rewrite Hs. by apply (IH 0%nat (m', run)).
    + apply (IH (S i)).
  - destruct i as [|i]; simpl.
    + by intros [= <-] [= <-].
    + apply (IH i).
Qed.

(** The senders survive the grouping. *)
Lemma group_from_senders g l :
  senders (group_from g l) = {[Message.sender g]} ∪ senders l.
Proof.
  unfold senders.
  revert g. induction l as [|m l IH]; intros g; simpl.
  - set_solver+.
  - case_bool_decide as Hs.
    + rewrite IH. simpl. rewrite <-Hs.
      by rewrite (assoc_L (∪)), (idemp_L (∪)).
    + simpl. rewrite IH. set_solver+.
Qed.

Lemma group_consecutive_senders conversation :
  senders (_group_consecutive_messages conversation) = senders conversation.
Proof.
  destruct conversation as [|m l]; [done|].
  rewrite group_consecutive_from, group_from_senders.
  unfold senders. simpl. set_solver+.
Qed.

Lemma group_from_head g l :
  ∃ h t, group_from g l = h :: t ∧ Message.sender h = Message.sender g.
Proof.
  revert g. induction l as [|m l IH]; intros g; simpl.
  - by exists g, [].
  - case_bool_decide.
    + destruct (IH (absorb g m)) as (h & t & -> & Hh). by exists h, t.
    + by exists g, (group_from m l).
Qed.

Lemma group_from_adjacent g l : adjacent_differ (group_from g l).
Proof.
  revert g. induction l as [|m l IH]; intros g; simpl; [done|].
  case_bool_decide as Hs; [apply IH|].
  specialize (IH m).
  destruct (group_from_head m l) as (h & t & Heq & Hh).
  rewrite Heq in *. split; [congruence|done].
Qed.

Lemma adjacent_differ_lookup l i a b :
  adjacent_differ l → l !! i = Some a → l !! S i = Some b →
  Message.sender a ≠ Message.sender b.
Proof.
  revert i. induction l as [|x l IH]; intros i Hl; [done|].
  destruct l as [|y l]; [by destruct i|].
  destruct Hl as [Hxy Hl].
  destruct i as [|i]; simpl.
  - by intros [= <-] [= <-].
  - apply (IH i Hl).
Qed.

Lemma group_consecutive_length conversation :
  (length (_group_consecutive_messages conversation) ≤ length conversation)%nat.
Proof.
  destruct conversation as [|m l]; [done|].
  rewrite group_consecutive_from. simpl.
  revert m. induction l as [|x l IH]; intros m; simpl; [lia|].
  case_bool_decide; [specialize (IH (absorb m x))|specialize (IH x)]; simpl; lia.
Qed.

(** ** Order *)

Lemma StronglySorted_sublist {A} (R : relation A) l1 l2 :
  l1 `sublist_of` l2 → StronglySorted R l2 → StronglySorted R l1.
Proof.
  induction 1 as [|x l1 l2 Hsub IH|x l1 l2 Hsub IH]; intros Hs; [done|..].
  - apply StronglySorted_cons in Hs as [Hx Hs]. apply StronglySorted_cons.
    split; [|auto]. eapply Forall_forall. intros y Hy.
    eapply Forall_forall; [exact Hx|]. by eapply sublist_subseteq.
  - apply StronglySorted_cons in Hs as [_ Hs]. auto.
Qed.

Lemma StronglySorted_concat {A} (R : relation A) (ls : list (list A)) :
  StronglySorted R (concat ls) →
  Forall (StronglySorted R) ls ∧
  ∀ i j a b x y, (i < j)%nat → ls !! i = Some a → ls !! j = Some b →
    x ∈ a → y ∈ b → R x y.
Proof.
  induction ls as [|l ls IH]; simpl; intros Hs.
  { split; [constructor|]. intros i j a b x y _ Hi. by destruct i. }
  apply StronglySorted_app in Hs as (Hcross & Hl & Hls).
  destruct (IH Hls) as [Hall Hpair]. split; [by constructor|].
  intros i j a b x y Hij Hi Hj Hx Hy.
  destruct j as [|j]; [lia|]. simpl in Hj.
  destruct i as [|i]; simpl in Hi.
  - injection Hi as <-. apply Hcross; [done|].
    apply list_elem_of_In, in_concat. exists b. split.
    + by apply list_elem_of_In, list_elem_of_lookup_2 with j.
    + by apply list_elem_of_In.
  - apply (Hpair i j a b); [lia|done..].
Qed.

Lemma processed_stream_ordered um messages :
  StronglySorted Z.le
    (Message.timestamp_ms <$> processed_stream um (sorted_messages messages)).
Proof.
  unfold processed_stream. rewrite <-list_fmap_compose.
  eapply (StronglySorted_fmap _ (λ a b, timestamp_key a ≤ timestamp_key b)).
  { done. }
  eapply StronglySorted_sublist; [apply sublist_filter|].
  apply (sorted_ordered timestamp_key).
Qed.

Lemma group_from_timestamps g l :
  Message.timestamp_ms <$> group_from g l
    `sublist_of` Message.timestamp_ms g :: (Message.timestamp_ms <$> l).
Proof.
  revert g. induction l as [|m l IH]; intros g; simpl; [done|].
  case_bool_decide.
  - apply sublist_cons. apply (IH (absorb g m)).
  - apply sublist_skip, IH.
Qed.

Lemma group_consecutive_timestamps conversation :
  Message.timestamp_ms <$> _group_consecutive_messages conversation
    `sublist_of` Message.timestamp_ms <$> conversation.
Proof.
  destruct conversation as [|m l]; [done|].
  rewrite group_consecutive_from. apply group_from_timestamps.
Qed.

Lemma grouped_timestamps (convs : list Conversation) :
  Message.timestamp_ms <$> concat (_group_consecutive_messages <$> convs)
    `sublist_of` Message.timestamp_ms <$> concat convs.
Proof.
  induction convs as [|c convs IH]; [done|].
  rewrite fmap_cons. simpl. rewrite !fmap_app.
  apply sublist_app; [apply group_consecutive_timestamps|done].
Qed.

(** ** The method as a whole *)

Lemma segment_grouped um l T io mm :
  segment um l T io mm true =
  _group_consecutive_messages <$> segment um l T io mm false.
Proof. unfold segment. by destruct (foldl _ _ l). Qed.


Lemma segment_ungrouped um l T io mm :
  segment_spec um io mm l (segment um l T io mm false).
Proof.
  unfold segment.
  pose proof (loop_inv_foldl um T io mm l) as Hinv.
  destruct (foldl _ _ l) as [convs cur].
  destruct Hinv as [Hsub Hall Hne Hopen Hcap Hvalid].
  simpl in Hsub, Hall, Hne, Hopen, Hcap, Hvalid.
  destruct cur as [|m cur].
  { rewrite app_nil_r in Hsub, Hall. split; auto. intros Hmm. by apply Hcap. }
  destruct (close_cases io convs (m :: cur)) as [[-> Hv]|[-> Hio]].
  - assert (Hcat : concat (convs ++ [m :: cur]) = concat convs ++ m :: cur).
    { rewrite concat_app. simpl. by rewrite app_nil_r. }
    split; rewrite ?Hcat; auto.
    + apply Forall_app. split; [done|]. by constructor.
    + intros Hmm. destruct (Hcap Hmm). apply Forall_app. split; [done|].
      by constructor.
    + intros Hio. apply Forall_app. split; [auto|]. constructor; auto.
  - split; auto.
    + etrans; [|exact Hsub]. by apply sublist_inserts_r.
    + congruence.
    + intros Hmm. by apply Hcap.
Qed.

(** A normal return of [parse_conversations] is the segmentation of the
    loaded messages. *)
Lemma parse_conversations_returns self T io mm gc convs self' :
  parse_conversations self T io mm gc = inr (convs, self') →
  convs = segment (user_mapping self) (sorted_messages (loaded_messages self))
            T io mm gc.
Proof.
  unfold parse_conversations, loaded_messages. intros H.
  destruct (messages_data self) as [data|] eqn:Hdata.
  2:{ injection H as <- <-. by destruct gc. }
  destruct data as [d|arr].
  - destruct (truthy (JObject d)) eqn:Ht; simpl in H.
    + destruct (sorted_messages (default [] (Dict.messages d))) eqn:Hs;
        injection H as <- <-; [by destruct gc|done].
    + injection H as <- <-.
      assert (Dict.messages d = None) as ->.
      { simpl in Ht. unfold Dict.truthy in Ht.
        destruct (Dict.messages d); [|done].
        by rewrite !andb_false_r in Ht. }
      by destruct gc.
  - destruct arr; [|done]. injection H as <- <-. by destruct gc.
Qed.

(** The method returns normally on everything but a non-empty array. *)
Lemma parse_conversations_total self T io mm gc :
  (∀ x arr, messages_data self ≠ Some (JArray (x :: arr))) →
  ∃ convs self', parse_conversations self T io mm gc = inr (convs, self').
Proof.
  intros Harr. unfold parse_conversations.
  destruct (messages_data self) as [[d|[|x arr]]|] eqn:Hd;
    [|by eexists _, _|by destruct (Harr x arr)|by eexists _, _].
  destruct (negb (truthy (JObject d))); [by eexists _, _|].
  destruct (sorted_messages (default [] (Dict.messages d))); by eexists _, _.
Qed.

Lemma parser_of_returns um messages T io mm gc :
  ∃ self',
    parse_conversations (parser_of um messages) T io mm gc =
      inr (segment um (sorted_messages messages) T io mm gc, self').
Proof.
  unfold parse_conversations, parser_of. simpl.
  destruct (sorted_messages messages) eqn:Hs; [|by eexists].
  eexists. by destruct gc.
Qed.

(** ** The cap *)

(** C2, as stated, fails: with [max_messages = 0] and the validity test off,
    one message with content comes back as a conversation of one message,
    more than the cap. *)
Lemma cap_exceeded_at_zero :
  ∃ self',
    parse_conversations (parser_of [] [raw "a" "hi" 1000]) 30 false 0 false =
      inr ([[Message.mk "a" "hi" 1000 (Some (isoformat_fromtimestamp 1000))]],
           self') ∧
    ¬ Forall (λ c : Conversation, Z.of_nat (length c) ≤ 0)
        [[Message.mk "a" "hi" 1000 (Some (isoformat_fromtimestamp 1000))]].
Proof.
  eexists. split; [vm_compute; reflexivity|].
  intros H. apply Forall_cons in H as [Hlen _]. simpl in Hlen. lia.
Qed.

(** C2, amended.  For every input and every [max_messages] of at least 1,
    every conversation returned by [parse_conversations] has at most
    [max_messages] messages; and the cap is tested before the gap test: when
    the open conversation holds [max_messages] messages, the next message
    with content closes it and starts a new conversation, whatever the
    threshold and the timestamps. *)
Theorem cap_respected mm :
  1 ≤ mm →
  (∀ self T io gc convs self',
     parse_conversations self T io mm gc = inr (convs, self') →
     Forall (λ c : Conversation, Z.of_nat (length c) ≤ mm) convs) ∧
  (∀ um T io convs cur message c,
     Dict.content message = Some c →
     Z.of_nat (length cur) = mm →
     loop_body um T io mm (convs, cur) message =
       (close io convs cur, [processed_msg um message])).
Proof.
  intros Hmm. split.
  - intros self T io gc convs self' Hr.
    apply parse_conversations_returns in Hr as ->.
    pose proof (segment_ungrouped (user_mapping self)
                  (sorted_messages (loaded_messages self)) T io mm) as Hspec.
    pose proof (seg_cap _ _ _ _ _ Hspec Hmm) as Hcap.
    destruct gc; [|done].
    rewrite segment_grouped, Forall_fmap.
    eapply Forall_impl; [exact Hcap|]. simpl. intros c Hc.
    pose proof (group_consecutive_length c). lia.
  - intros um T io convs cur message c Hc Hlen.
    eapply loop_body_full; [done| |lia].
    destruct cur; simpl in Hlen; [lia|done].
Qed.

Lemma cap_respected_witness :
  1 ≤ 2 ∧
  ∃ convs self',
    parse_conversations example_parser 100 true 2 false = inr (convs, self') ∧
    Forall (λ c : Conversation, Z.of_nat (length c) ≤ 2) convs.
Proof.
  split; [lia|].
  eexists _, _. split; [vm_compute; reflexivity|].
  eapply (proj1 (cap_respected 2 ltac:(lia)) example_parser 100 true false).
  vm_compute; reflexivity.
Defined.

(** ** The validity test *)

(** C3.  With [interchange_only] true, every conversation returned by
    [parse_conversations], the last one included and whether or not the
    grouping pass runs, has at least 2 distinct senders; with
    [interchange_only] false the validity test accepts every conversation,
    closing emits the open conversation, and the returned conversations
    are together all the processed messages. *)
Theorem interchange_filter self T mm :
  (∀ gc convs self',
     parse_conversations self T true mm gc = inr (convs, self') →
     Forall (λ c, 2 ≤ size (senders c))%nat convs) ∧
  (∀ conversation, _is_valid_conversation conversation false = true) ∧
  (∀ convs cur, close false convs cur = convs ++ [cur]) ∧
  (∀ convs self',
     parse_conversations self T false mm false = inr (convs, self') →
     concat convs =
       processed_stream (user_mapping self)
         (sorted_messages (loaded_messages self))).
Proof.
  split; [|split; [done|split; [done|]]].
  - intros gc convs self' Hr.
    apply parse_conversations_returns in Hr as ->.
    pose proof (segment_ungrouped (user_mapping self)
                  (sorted_messages (loaded_messages self)) T true mm) as Hspec.
    pose proof (seg_valid _ _ _ _ _ Hspec eq_refl) as Hvalid.
    destruct gc; [|done].
    rewrite segment_grouped, Forall_fmap.
    eapply Forall_impl; [exact Hvalid|]. simpl. intros c Hc.
    by rewrite group_consecutive_senders.
  - intros convs self' Hr.
    apply parse_conversations_returns in Hr as ->.
    by apply (seg_all _ _ _ _ _ (segment_ungrouped _ _ T false mm)).
Qed.

Lemma interchange_filter_witness :
  ∃ convs self',
    parse_conversations example_parser 30 true 10 true = inr (convs, self') ∧
    Forall (λ c, 2 ≤ size (senders c))%nat convs.
Proof.
  eexists _, _. split; [vm_compute; reflexivity|].
  eapply (proj1 (interchange_filter example_parser 30 10) true).
  vm_compute; reflexivity.
Defined.

(** ** Chronological order *)

Lemma returned_timestamps_ordered um messages T io mm gc :
  StronglySorted Z.le
    (Message.timestamp_ms <$>
       concat (segment um (sorted_messages messages) T io mm gc)).
Proof.
  assert (Hbase : StronglySorted Z.le
            (Message.timestamp_ms <$>
               concat (segment um (sorted_messages messages) T io mm false))).
  { eapply StronglySorted_sublist; [|apply (processed_stream_ordered um messages)].
    apply fmap_sublist.
    apply (seg_sublist _ _ _ _ _ (segment_ungrouped um _ T io mm)). }
  destruct gc; [|done].
  rewrite segment_grouped.
  eapply StronglySorted_sublist; [apply grouped_timestamps|done].
Qed.

Lemma fmap_concat {A B} (f : A → B) (ls : list (list A)) :
  f <$> concat ls = concat (fmap (M:=list) f <$> ls).
Proof.
  induction ls as [|l ls IH]; [done|].
  simpl. by rewrite fmap_app, IH.
Qed.

(** C4.  In the list returned by [parse_conversations], the messages of
    every conversation are in ascending order of [timestamp_ms], and the
    conversations are pairwise in ascending order of the [timestamp_ms] of
    their first message. *)
Theorem conversations_ordered self T io mm gc convs self' :
  parse_conversations self T io mm gc = inr (convs, self') →
  Forall (λ c, StronglySorted Z.le (Message.timestamp_ms <$> c)) convs ∧
  ∀ i j ci cj mi mj,
    (i < j)%nat → convs !! i = Some ci → convs !! j = Some cj →
    head ci = Some mi → head cj = Some mj →
    Message.timestamp_ms mi ≤ Message.timestamp_ms mj.
Proof.
  intros Hr. apply parse_conversations_returns in Hr as ->.
  pose proof (returned_timestamps_ordered (user_mapping self)
                (loaded_messages self) T io mm gc) as Hs.
  set (convs := segment _ _ _ _ _ _) in *.
  rewrite fmap_concat in Hs.
  apply StronglySorted_concat in Hs as [Hall Hpair]. split.
  - rewrite Forall_fmap in Hall. eapply Forall_impl; [exact Hall|done].
  - intros i j ci cj mi mj Hij Hi Hj Hmi Hmj.
    apply (Hpair i j (Message.timestamp_ms <$> ci) (Message.timestamp_ms <$> cj));
      [done|by rewrite list_lookup_fmap, Hi|by rewrite list_lookup_fmap, Hj|..];
      by apply list_elem_of_fmap_2, head_Some_elem_of.
Qed.

Lemma conversations_ordered_witness :
  ∃ convs self',
    parse_conversations example_parser 30 false 10 false = inr (convs, self') ∧
    Forall (λ c, StronglySorted Z.le (Message.timestamp_ms <$> c)) convs ∧
    ∀ i j ci cj mi mj,
      (i < j)%nat → convs !! i = Some ci → convs !! j = Some cj →
      head ci = Some mi → head cj = Some mj →
      Message.timestamp_ms mi ≤ Message.timestamp_ms mj.
Proof.
  eexists _, _. split; [vm_compute; reflexivity|].
  eapply (conversations_ordered example_parser 30 false 10 false).
  vm_compute; reflexivity.
Defined.

(** ** The grouping pass, as described *)

(** C7.  With [group_consecutive] true the returned list is the list that is
    returned without it, each conversation replaced by its grouping; the
    grouping of a conversation turns every maximal run of adjacent messages
    of one sender into one message with that sender, the contents of the
    run joined by [", "], and [timestamp_ms] and [timestamp] of the last
    message of the run.  The runs partition the conversation, each has one
    sender, and neighbouring runs have different senders. *)
Theorem group_consecutive_merges_runs :
  (∀ self T io mm convs self',
     parse_conversations self T io mm true = inr (convs, self') →
     ∃ convs0 self0,
       parse_conversations self T io mm false = inr (convs0, self0) ∧
       convs = merged_runs <$> convs0) ∧
  (∀ conversation,
     _group_consecutive_messages conversation = merge_run <$> runs conversation) ∧
  (∀ first rest,
     merge_run (first, rest) =
       Message.mk (Message.sender first)
         (Str.join ", " (Message.content <$> first :: rest))
         (Message.timestamp_ms (List.last rest first))
         (Message.timestamp (List.last rest first))) ∧
  (∀ conversation,
     concat ((λ r, r.1 :: r.2) <$> runs conversation) = conversation ∧
     Forall (λ r, Forall (λ m, Message.sender m = Message.sender r.1) r.2)
       (runs conversation) ∧
     ∀ i r1 r2, runs conversation !! i = Some r1 →
       runs conversation !! S i = Some r2 →
       Message.sender r1.1 ≠ Message.sender r2.1).
Proof.
  split; [|split; [|split]].
  - intros self T io mm convs self' Hr.
    pose proof (parse_conversations_returns _ _ _ _ _ _ _ Hr) as ->.
    assert (∃ self0, parse_conversations self T io mm false =
              inr (segment (user_mapping self)
                     (sorted_messages (loaded_messages self)) T io mm false, self0))
      as [self0 H0].
    { revert Hr. unfold parse_conversations, loaded_messages.
      destruct (messages_data self) as [[d|arr]|]; [| |by eexists].
      - destruct (negb (truthy (JObject d))) eqn:Ht.
        + assert (Dict.messages d = None) as ->; [|by eexists].
          apply negb_true_iff in Ht. simpl in Ht. unfold Dict.truthy in Ht.
          destruct (Dict.messages d); [|done].
          by rewrite !andb_false_r in Ht.
        + destruct (sorted_messages (default [] (Dict.messages d)));
            by eexists.
      - destruct arr; [by eexists|done]. }
    eexists _, self0. split; [exact H0|].
    rewrite segment_grouped. apply list_fmap_ext.
    intros _ c _. apply group_consecutive_runs.
  - apply group_consecutive_runs.
  - done.
  - intros conversation. split; [apply runs_concat|].
    split; [apply runs_one_sender|apply runs_maximal].
Qed.

Lemma group_consecutive_merges_runs_witness :
  ∃ convs self',
    parse_conversations example_parser 30 true 10 true = inr (convs, self') ∧
    ∃ convs0 self0,
      parse_conversations example_parser 30 true 10 false = inr (convs0, self0) ∧
      convs = merged_runs <$> convs0.
Proof.
  eexists _, _. split; [vm_compute; reflexivity|].
  eapply (proj1 group_consecutive_merges_runs example_parser 30 true 10).
  vm_compute; reflexivity.
Defined.

(** Scenario E of the description. *)
Example group_hi_there :
  _group_consecutive_messages
    [Message.mk "user" "hi" 1000 (Some (isoformat_fromtimestamp 1000));
     Message.mk "user" "there" 2000 (Some (isoformat_fromtimestamp 2000))] =
    [Message.mk "user" "hi, there" 2000 (Some (isoformat_fromtimestamp 2000))].
Proof. reflexivity. Qed.

(** C9.  The grouping pass keeps the set of senders of a conversation, so
    with [interchange_only] and [group_consecutive] both true every
    returned conversation still has at least 2 distinct senders; and no two
    neighbours of a grouped conversation have the same sender. *)
Theorem grouping_keeps_senders :
  (∀ conversation,
     senders (_group_consecutive_messages conversation) = senders conversation) ∧
  (∀ self T mm convs self',
     parse_conversations self T true mm true = inr (convs, self') →
     Forall (λ c, 2 ≤ size (senders c))%nat convs) ∧
  (∀ conversation i a b,
     _group_consecutive_messages conversation !! i = Some a →
     _group_consecutive_messages conversation !! S i = Some b →
     Message.sender a ≠ Message.sender b).
Proof.
  split; [apply group_consecutive_senders|split].
  - intros self T mm convs self' Hr.
    apply parse_conversations_returns in Hr as ->.
    rewrite segment_grouped, Forall_fmap.
    eapply Forall_impl.
    + apply (seg_valid _ _ _ _ _ (segment_ungrouped _ _ T true mm) eq_refl).
    + simpl. intros c Hc. by rewrite group_consecutive_senders.
  - intros conversation i a b. apply adjacent_differ_lookup.
    destruct conversation as [|m l]; [done|].
    rewrite group_consecutive_from. apply group_from_adjacent.
Qed.

Lemma grouping_keeps_senders_witness :
  ∃ convs self',
    parse_conversations example_parser 30 true 10 true = inr (convs, self') ∧
    Forall (λ c, 2 ≤ size (senders c))%nat convs.
Proof.
  eexists _, _. split; [vm_compute; reflexivity|].
  eapply (proj1 (proj2 grouping_keeps_senders) example_parser 30 10).
  vm_compute; reflexivity.
Defined.

(** ** The content test *)

Lemma with_content_middle msgs1 m msgs2 :
  is_Some (Dict.content m) →
  with_content (msgs1 ++ m :: msgs2) =
    with_content msgs1 ++ m :: with_content msgs2.
Proof.
  intros H. unfold with_content.
  by rewrite filter_app, filter_cons_True.
Qed.

Lemma filter_bool_length {A} (P : A → Prop) `{∀ x, Decision (P x)} (l : list A) :
  length (List.filter (λ x, bool_decide (P x)) l) = length (filter P l).
Proof.
  induction l as [|x l IH]; [done|].
  simpl. rewrite filter_cons. case_bool_decide; destruct (decide (P x)); simpl;
    try done; by rewrite IH.
Qed.

Lemma loop_body_last um T io mm st message c :
  Dict.content message = Some c →
  last (loop_body um T io mm st message).2 = Some (processed_msg um message).
Proof.
  intros Hc. destruct st as [convs cur].
  destruct (loop_body_cases um T io mm convs cur message c Hc)
    as [[-> _]|[-> _]]; simpl; [apply last_snoc|done].
Qed.

(** C10.  A raw record is skipped by the loop exactly on the absence of the
    [content] key: without the key the turn leaves the state as it is; with
    the key, the empty string included, the processed message becomes the
    last message of the open conversation, and an empty content stays
    empty.  With the validity test off, the returned conversations are
    together the processed forms of the records that have the key, in sorted
    order.  [get_statistics] counts a record with empty content in
    [messages_with_content]. *)
Theorem content_key_decides um T io mm :
  (∀ st message,
     Dict.content message = None → loop_body um T io mm st message = st) ∧
  (∀ st message c,
     Dict.content message = Some c →
     last (loop_body um T io mm st message).2 = Some (processed_msg um message)) ∧
  (∀ message,
     Dict.content message = Some "" →
     Message.content (processed_msg um message) = "") ∧
  (∀ self convs self',
     user_mapping self = um →
     parse_conversations self T false mm false = inr (convs, self') →
     concat convs =
       processed_msg um <$>
         filter (λ m, is_Some (Dict.content m))
           (sorted_messages (loaded_messages self))) ∧
  (∀ self d msgs1 m msgs2,
     messages_data self = Some (JObject d) →
     Dict.messages d = Some (msgs1 ++ m :: msgs2) →
     Dict.content m = Some "" →
     ∃ st, get_statistics self = inr (Some st) ∧
           total_messages st = length (msgs1 ++ m :: msgs2) ∧
           messages_with_content st =
             S (length (with_content msgs1) + length (with_content msgs2))).
Proof.
  split; [|split; [|split; [|split]]].
  - intros st message. apply loop_body_skip.
  - intros st message c. apply loop_body_last.
  - intros message Hc. unfold processed_msg, processed_content. simpl.
    by rewrite Hc.
  - intros self convs self' <- Hr.
    apply parse_conversations_returns in Hr as ->.
    by apply (seg_all _ _ _ _ _ (segment_ungrouped _ _ T false mm)).
  - intros self d msgs1 m msgs2 Hd Hm Hc.
    unfold get_statistics. rewrite Hd.
    assert (truthy (JObject d) = true) as ->.
    { simpl. unfold Dict.truthy. rewrite Hm. by rewrite !andb_false_r. }
    simpl. eexists. split; [done|]. simpl. rewrite Hm. simpl.
    split; [done|].
    rewrite (filter_bool_length (λ msg, is_Some (Dict.content msg))).
    fold (with_content (msgs1 ++ m :: msgs2)).
    rewrite with_content_middle by (by rewrite Hc).
    rewrite length_app. simpl. lia.
Qed.

Lemma content_key_decides_witness :
  let m := raw "User Name" "" 1700000000000 in
  Dict.content m = Some "" ∧
  last (loop_body test_mapping 30 true 10 ([], []) m).2 =
    Some (processed_msg test_mapping m) ∧
  Message.content (processed_msg test_mapping m) = "".
Proof.
  intros m. split; [reflexivity|]. split.
  - apply (proj1 (proj2 (content_key_decides test_mapping 30 true 10))
             ([], []) m ""). reflexivity.
  - apply (proj1 (proj2 (proj2 (content_key_decides test_mapping 30 true 10))) m).
    reflexivity.
Defined.

(** ** The attachment placeholder *)

Lemma truthy_strip st :
  str_truthy st && str_truthy (Str.strip st) = bool_decide (Str.strip st ≠ "").
Proof.
  destruct st as [|a st]; [done|]. simpl.
  destruct (Str.strip (String a st)); [done|].
  by rewrite bool_decide_eq_true_2.
Qed.

(** C6, as stated, fails: a [share_text] that is not empty but blank leaves
    the short marker (and a [share_text] is trimmed before it is quoted). *)
Lemma blank_share_text_not_quoted :
  let message :=
    Dict.mk (Some "Ana") (Some "Enviaste un archivo adjunto.") (Some 1000)
      (Some {| share_text := Some " " |}) None None in
  Str.lower (Str.strip "Enviaste un archivo adjunto.")
    = "enviaste un archivo adjunto." ∧
  Dict.share message ≫= share_text = Some " " ∧
  " " ≠ "" ∧
  Message.sender (processed_msg [] message) = "Ana" ∧
  Message.content (processed_msg [] message) = "[image from Ana]" ∧
  Message.content (processed_msg [] message) ≠ "[image from Ana:  ]".
Proof.
  intros message.
  split; [reflexivity|]. split; [reflexivity|]. split; [discriminate|].
  split; [reflexivity|]. split; [reflexivity|]. discriminate.
Qed.

(** C6, amended.  For every raw message with content: when the trimmed,
    lower-cased content is ["enviaste un archivo adjunto."], the processed
    content is ["[image from {sender}: {share_text}]"] with the trimmed
    [share.share_text] when that field is present and not blank, and
    ["[image from {sender}]"] otherwise, [sender] being the resolved
    sender; for every other content the processed content is the raw
    content. *)
Theorem attachment_placeholder_rule um message c :
  Dict.content message = Some c →
  let sender := _replace_username um (default "" (Dict.sender_name message)) in
  Message.sender (processed_msg um message) = sender ∧
  Message.content (processed_msg um message) =
    if bool_decide (Str.lower (Str.strip c) = "enviaste un archivo adjunto.")
    then match Dict.share message ≫= share_text with
         | Some st =>
             if bool_decide (Str.strip st ≠ "")
             then "[image from " +:+ sender +:+ ": " +:+ Str.strip st +:+ "]"
             else "[image from " +:+ sender +:+ "]"
         | None => "[image from " +:+ sender +:+ "]"
         end
    else c.
Proof.
  intros Hc sender. split; [done|].
  unfold processed_msg, processed_content. fold sender.
  cbn [Message.content]. rewrite Hc. simpl default.
  unfold attachment_placeholder.
  case_bool_decide; [|done].
  destruct (Dict.share message ≫= share_text) as [st|]; [|done].
  by rewrite truthy_strip.
Qed.

Lemma attachment_placeholder_rule_witness :
  let message :=
    Dict.mk (Some "User Name") (Some " Enviaste un archivo adjunto. ")
      (Some 1000) (Some {| share_text := Some " a photo " |}) None None in
  Dict.content message = Some " Enviaste un archivo adjunto. " ∧
  Message.content (processed_msg test_mapping message) =
    "[image from user: a photo]".
Proof.
  intros message. split; [reflexivity|].
  exact (proj2 (attachment_placeholder_rule test_mapping message _ eq_refl)).
Defined.

(** Scenario D of the description. *)
Example placeholder_without_share :
  Message.content
    (processed_msg test_mapping (raw "Other Person" "Enviaste un archivo adjunto." 1000))
  = "[image from friend]".
Proof. reflexivity. Qed.

(** ** Loading one file *)

(** C8 does not hold of the code.  A single file whose object has no
    [messages] key is stored as it is, and [parse_conversations] then reads
    an empty message list and returns no conversation; the directory
    branch of [load_messages] takes the same object as one message. *)
Theorem single_file_record_is_lost self m T io mm gc :
  Dict.messages m = None →
  ∃ self1,
    load_messages self (File (Some (JObject m))) = inr self1 ∧
    loaded_messages self1 = [] ∧
    (∃ self2, parse_conversations self1 T io mm gc = inr ([], self2)) ∧
    ∃ self3,
      load_messages self (Directory [("message_1.json", Some (JObject m))])
        = inr self3 ∧
      loaded_messages self3 = [m].
Proof.
  intros Hm. eexists. split; [done|]. split; [|split].
  - unfold loaded_messages. simpl. by rewrite Hm.
  - unfold parse_conversations. simpl.
    destruct (negb (Dict.truthy m)); [by eexists|].
    rewrite Hm. simpl. by eexists.
  - exists (with_data self (export_of [m])). split; [|done].
    destruct m as [sn c ts sh ms ps]. simpl in Hm. subst ms.
    vm_compute. reflexivity.
Qed.

Lemma single_file_record_is_lost_witness :
  let m := raw "User Name" "Hey! How are you?" 1700000000000 in
  Dict.messages m = None ∧
  ∃ self1,
    load_messages (init test_mapping) (File (Some (JObject m))) = inr self1 ∧
    loaded_messages self1 = [] ∧
    (∃ self2, parse_conversations self1 30 false 10 false = inr ([], self2)) ∧
    ∃ self3,
      load_messages (init test_mapping)
        (Directory [("message_1.json", Some (JObject m))]) = inr self3 ∧
      loaded_messages self3 = [m].
Proof.
  intros m. split; [reflexivity|].
  apply (single_file_record_is_lost (init test_mapping) m 30 false 10 false).
  reflexivity.
Defined.

(** An array in a single file is stored too, and the method then fails on
    [self.messages_data.get]; the directory branch extends the message list
    with it. *)
Example single_file_array_raises self x arr T io mm gc :
  ∃ self1,
    load_messages self (File (Some (JArray (x :: arr)))) = inr self1 ∧
    parse_conversations self1 T io mm gc = inl AttributeError.
Proof. by eexists. Qed.

(** ** The four messages of the tests *)

(** The gap test on integers: the gap in milliseconds against a thousand
    times the threshold. *)
Lemma should_group_Z msg1 msg2 T conversation :
  _should_group_messages msg1 msg2 T conversation =
  (Z.abs (Message.timestamp_ms msg2 - Message.timestamp_ms msg1)
     <=? 1000 * threshold T conversation).
Proof.
  unfold _should_group_messages, time_diff, Qle_bool. simpl.
  f_equal; lia.
Qed.

Lemma legacy_should_group_Z msg1 msg2 T :
  Legacy._should_group_messages msg1 msg2 T =
  (Z.abs (Message.timestamp_ms msg2 - Message.timestamp_ms msg1) <=? 1000 * T).
Proof.
  unfold Legacy._should_group_messages, time_diff, Qle_bool. simpl.
  f_equal; lia.
Qed.

Lemma insert_sorted_le x y l :
  timestamp_key x ≤ timestamp_key y →
  insert_sorted (key_leb timestamp_key) x (y :: l) = x :: y :: l.
Proof. intros H. simpl. unfold key_leb. by rewrite (proj2 (Z.leb_le _ _)). Qed.

Lemma four_messages_sorted t0 :
  sorted_messages (four_messages t0) = four_messages t0.
Proof.
  unfold sorted_messages, sorted, four_messages.
  cbn [foldr]. change (insert_sorted _ ?x []) with [x].
  rewrite !insert_sorted_le; [done|unfold timestamp_key; simpl; lia..].
Qed.

(** Evaluation of one turn of the loop on messages with symbolic
    timestamps. *)
Ltac eval_interchange :=
  match goal with
  | |- context [threshold ?T ?c] =>
      let v := eval vm_compute in (has_interchange c) in
      let H := fresh in
      assert (H : has_interchange c = v) by (vm_compute; reflexivity);
      unfold threshold; rewrite H; clear H
  end.

Ltac eval_gap :=
  cbn [Message.timestamp_ms processed_msg Legacy.processed_msg default
       from_option id Dict.timestamp_ms raw];
  match goal with
  | |- context [Z.leb ?a ?b] =>
      first [ rewrite (proj2 (Z.leb_le a b)) by lia
            | rewrite (proj2 (Z.leb_gt a b)) by lia ]
  end.

Ltac eval_valid :=
  match goal with
  | |- context [close ?io ?convs ?cur] =>
      let v := eval vm_compute in (_is_valid_conversation cur io) in
      let H := fresh in
      assert (H : _is_valid_conversation cur io = v) by (vm_compute; reflexivity);
      unfold close at 1; rewrite H; clear H
  end.

Ltac loop_turn :=
  first
    [ erewrite loop_body_first by reflexivity
    | erewrite loop_body_open by first [reflexivity | simpl; lia];
      rewrite should_group_Z; eval_interchange; eval_gap;
      try eval_valid ].

(** C5, as stated, fails for the parser of [src/src/parser.py]: with
    [time_threshold_seconds = 10] and the other parameters at their
    defaults the four messages give 1 conversation, not 3. *)
Lemma four_messages_not_three :
  ∃ convs self',
    parse_conversations example_parser 10 true 10 false = inr (convs, self') ∧
    length convs = 1%nat ∧ length convs ≠ 3%nat.
Proof.
  eexists _, _. split; [vm_compute; reflexivity|].
  split; [reflexivity|discriminate].
Qed.

(** C5, amended.  For the four messages of two senders in turn at 0 s,
    15 s, 20 s and 90 s after any [t0], with [time_threshold_seconds = 10]:
    [parse_conversations] of [src/src/parser.py] with its defaults returns
    exactly 1 conversation, the messages at 0 s, 15 s and 20 s (the 15 s
    gap is within the 60 s allowed before an interchange; the message at
    90 s alone does not pass the validity test); with [interchange_only]
    false it returns 2, that one and the message at 90 s alone; the older
    [parse_conversations] of [src/parser.py] returns 3: the message at 0 s
    alone, those at 15 s and 20 s, and the message at 90 s alone. *)
Theorem four_messages_threshold_10 t0 :
  let self := parser_of test_mapping (four_messages t0) in
  let p := processed_msg test_mapping <$> four_messages t0 in
  let q := Legacy.processed_msg test_mapping <$> four_messages t0 in
  (∃ self', parse_conversations self 10 true 10 false = inr ([take 3 p], self')) ∧
  (∃ self', parse_conversations self 10 false 10 false
              = inr ([take 3 p; drop 3 p], self')) ∧
  (∃ self', Legacy.parse_conversations self 10
              = inr ([take 1 q; take 2 (drop 1 q); drop 3 q], self')).
Proof.
  intros self p q. subst self p q. split; [|split].
  - destruct (parser_of_returns test_mapping (four_messages t0) 10 true 10 false)
      as [self' ->].
    exists self'. do 2 f_equal.
    rewrite four_messages_sorted. unfold segment, four_messages.
    cbn [foldl]. do 4 loop_turn.
    eval_valid. reflexivity.
  - destruct (parser_of_returns test_mapping (four_messages t0) 10 false 10 false)
      as [self' ->].
    exists self'. do 2 f_equal.
    rewrite four_messages_sorted. unfold segment, four_messages.
    cbn [foldl]. do 4 loop_turn.
    eval_valid. reflexivity.
  - unfold Legacy.parse_conversations, parser_of.
    cbn [messages_data export_of].
    change (negb (truthy _)) with false. cbn iota.
    cbn [Dict.messages default from_option id]. rewrite four_messages_sorted.
    unfold four_messages at 1.
    cbn [foldl user_mapping Legacy.loop_body Dict.content raw List.last app].
    do 3 (rewrite legacy_should_group_Z; eval_gap;
          cbn [Legacy.loop_body Dict.content raw List.last app]).
    eexists. reflexivity.
Qed.

(** * Further properties of the code *)

(** ** [_replace_username] *)

(** X1.  [_replace_username] returns the role of the first entry of the
    mapping whose user name equals the given name up to case, and the name
    itself when there is no such entry; a name that has an entry gets the
    same role in every spelling of its letters' case. *)
Theorem replace_username_first_match um username :
  ((∃ pre role user post,
      um = pre ++ (role, user) :: post ∧ unmapped pre username ∧
      Str.lower user = Str.lower username ∧
      _replace_username um username = role) ∨
   (unmapped um username ∧ _replace_username um username = username)) ∧
  (∀ username',
     Str.lower username' = Str.lower username →
     ¬ unmapped um username →
     _replace_username um username' = _replace_username um username).
Proof.
  split.
  - induction um as [|[role user] um IH]; simpl.
    + right. split; [constructor|done].
    + case_bool_decide as Hm.
      * left. exists [], role, user, um. repeat split; [constructor|done].
      * destruct IH as [(pre & r & u & post & -> & Hpre & Hu & Hr)|[Hno Hr]].
        -- left. exists ((role, user) :: pre), r, u, post.
           repeat split; [by constructor|done|done].
        -- right. split; [by constructor|done].
  - intros username' Hlow. induction um as [|[role user] um IH]; simpl.
    + intros H. destruct H. constructor.
    + intros Hmapped. rewrite Hlow. case_bool_decide as Hm; [done|].
      apply IH. intros Hno. apply Hmapped. by constructor.
Qed.

Lemma replace_username_first_match_witness :
  Str.lower "USER NAME" = Str.lower "User Name" ∧
  ¬ unmapped test_mapping "User Name" ∧
  _replace_username test_mapping "USER NAME" = "user".
Proof.
  split; [reflexivity|]. split.
  { intros H. apply Forall_cons in H as [H _]. by apply H. }
  rewrite (proj2 (replace_username_first_match test_mapping "User Name")
             "USER NAME" eq_refl).
  - reflexivity.
  - intros H. apply Forall_cons in H as [H _]. by apply H.
Defined.

(** ** Outcomes of [parse_conversations] *)

Lemma sorted_messages_nil messages :
  sorted_messages messages = [] ↔ messages = [].
Proof.
  split; [|by intros ->].
  intros H. apply Permutation_nil_r. rewrite <-H.
  symmetry. apply (sorted_perm timestamp_key).
Qed.


(** ** What the returned conversations are made of *)

Lemma processed_stream_elem um messages m :
  m ∈ processed_stream um (sorted_messages messages) →
  ∃ raw, raw ∈ messages ∧ is_Some (Dict.content raw) ∧ m = processed_msg um raw.
Proof.
  unfold processed_stream, with_content. intros Hm.
  apply list_elem_of_fmap in Hm as (raw & -> & Hraw).
  apply list_elem_of_filter in Hraw as [Hc Hraw].
  exists raw. split; [|done].
  by apply (proj1 (elem_of_Permutation_proper raw _ _
                     (sorted_perm timestamp_key messages))).
Qed.

Lemma elem_of_concat {A} (x : A) (l : list A) (ls : list (list A)) :
  l ∈ ls → x ∈ l → x ∈ concat ls.
Proof.
  intros Hl Hx. apply list_elem_of_In, in_concat. exists l.
  split; by apply list_elem_of_In.
Qed.

Lemma group_consecutive_nonempty conversation :
  conversation ≠ [] → _group_consecutive_messages conversation ≠ [].
Proof.
  destruct conversation as [|m l]; [done|]. intros _.
  rewrite group_consecutive_from.
  by destruct (group_from_head m l) as (h & t & -> & _).
Qed.

(** X3.  No returned conversation is empty.  Without the grouping pass the
    returned conversations, one after the other, are a sub-sequence of the
    processed messages in sorted order: every returned message is the
    processed form of a loaded record that has content, and none is
    repeated or moved. *)
Theorem returned_is_subsequence self T io mm gc convs self' :
  parse_conversations self T io mm gc = inr (convs, self') →
  Forall (λ c, c ≠ []) convs ∧
  (gc = false →
   concat convs `sublist_of`
     processed_stream (user_mapping self) (sorted_messages (loaded_messages self)) ∧
   ∀ m, m ∈ concat convs →
     ∃ raw, raw ∈ loaded_messages self ∧ is_Some (Dict.content raw) ∧
            m = processed_msg (user_mapping self) raw).
Proof.
  intros Hr. apply parse_conversations_returns in Hr as ->.
  pose proof (segment_ungrouped (user_mapping self)
                (sorted_messages (loaded_messages self)) T io mm) as Hspec.
  split.
  - destruct gc; [|apply (seg_nonempty _ _ _ _ _ Hspec)].
    rewrite segment_grouped, Forall_fmap.
    eapply Forall_impl; [apply (seg_nonempty _ _ _ _ _ Hspec)|].
    intros c Hc. by apply group_consecutive_nonempty.
  - intros ->. pose proof (seg_sublist _ _ _ _ _ Hspec) as Hsub.
    split; [done|]. intros m Hm.
    apply processed_stream_elem. by eapply sublist_subseteq.
Qed.

Lemma returned_is_subsequence_witness :
  ∃ convs self',
    parse_conversations example_parser 30 true 10 true = inr (convs, self') ∧
    Forall (λ c, c ≠ []) convs.
Proof.
  eexists _, _. split; [vm_compute; reflexivity|].
  refine (proj1 (returned_is_subsequence example_parser 30 true 10 true _ _ _)).
  vm_compute; reflexivity.
Defined.

(** ** The gaps inside a conversation *)

Lemma gaps_within_snoc bound l a b :
  gaps_within bound l → last l = Some a →
  Z.abs (Message.timestamp_ms b - Message.timestamp_ms a) ≤ bound →
  gaps_within bound (l ++ [b]).
Proof.
  intros Hl Hlast Hab. induction l as [|x l IH]; [done|].
  destruct l as [|y l].
  - injection Hlast as ->. by split.
  - destruct Hl as [Hxy Hl]. split; [done|].
    apply IH; [done|]. by rewrite last_cons_cons in Hlast.
Qed.

Lemma gaps_within_lookup bound l i a b :
  gaps_within bound l → l !! i = Some a → l !! S i = Some b →
  Z.abs (Message.timestamp_ms b - Message.timestamp_ms a) ≤ bound.
Proof.
  revert i. induction l as [|x l IH]; intros i Hl; [done|].
  destruct l as [|y l]; [by destruct i|].
  destruct Hl as [Hxy Hl].
  destruct i as [|i]; simpl.
  - by intros [= <-] [= <-].
  - apply (IH i Hl).
Qed.

Lemma threshold_le_max T conversation : threshold T conversation ≤ Z.max T 60.
Proof. unfold threshold. destruct (has_interchange conversation); lia. Qed.

Lemma close_Forall (P : Conversation → Prop) io convs cur :
  Forall P convs → P cur → Forall P (close io convs cur).
Proof.
  intros Hconvs Hcur. unfold close.
  destruct (_is_valid_conversation cur io); [|done].
  apply Forall_app. split; [done|]. by constructor.
Qed.

Lemma loop_gaps um T io mm l :
  let st := foldl (loop_body um T io mm) ([], []) l in
  Forall (gaps_within (1000 * Z.max T 60)) st.1 ∧
  gaps_within (1000 * Z.max T 60) st.2.
Proof.
  apply (foldl_inv _ (λ _ st, Forall (gaps_within (1000 * Z.max T 60)) st.1 ∧
                             gaps_within (1000 * Z.max T 60) st.2)).
  { by split. }
  intros _ x [convs cur] [Hconvs Hcur]. simpl in Hconvs, Hcur.
  destruct (Dict.content x) as [c|] eqn:Hc; [|by rewrite loop_body_skip].
  destruct (decide (cur = [])) as [->|Hne].
  { erewrite loop_body_first by done. by split. }
  destruct (Z.le_gt_cases mm (Z.of_nat (length cur))) as [Hfull|Hopen].
  { erewrite loop_body_full by done. split; [by apply close_Forall|done]. }
  assert (is_Some (last cur)) as [last_msg Hlast] by by apply last_is_Some.
  erewrite loop_body_open by done.
  destruct (_should_group_messages _ _ _ _) eqn:Hg.
  - split; [done|]. simpl. eapply gaps_within_snoc; [done..|].
    rewrite should_group_Z in Hg. apply Z.leb_le in Hg.
    pose proof (threshold_le_max T cur). lia.
  - split; [by apply close_Forall|done].
Qed.

(** X4.  Without the grouping pass, two neighbouring messages of a returned
    conversation are never more than [max(time_threshold_seconds, 60)]
    seconds apart. *)
Theorem neighbours_within_threshold self T io mm convs self' :
  parse_conversations self T io mm false = inr (convs, self') →
  ∀ c i a b,
    c ∈ convs → c !! i = Some a → c !! S i = Some b →
    Z.abs (Message.timestamp_ms b - Message.timestamp_ms a) ≤ 1000 * Z.max T 60.
Proof.
  intros Hr c i a b Hc. apply gaps_within_lookup.
  apply parse_conversations_returns in Hr as ->.
  revert c Hc. apply Forall_forall.
  unfold segment.
  pose proof (loop_gaps (user_mapping self) T io mm
                (sorted_messages (loaded_messages self))) as [Hconvs Hcur].
  destruct (foldl _ _ _) as [convs cur]. simpl in Hconvs, Hcur.
  destruct cur; [done|]. by apply close_Forall.
Qed.

Lemma neighbours_within_threshold_witness :
  ∃ convs self' c a b,
    parse_conversations example_parser 10 true 10 false = inr (convs, self') ∧
    c ∈ convs ∧ c !! 0%nat = Some a ∧ c !! 1%nat = Some b ∧
    Z.abs (Message.timestamp_ms b - Message.timestamp_ms a) ≤ 1000 * Z.max 10 60.
Proof.
  eexists _, _, _, _, _.
  split; [vm_compute; reflexivity|].
  split; [apply list_elem_of_here|].
  split; [reflexivity|]. split; [reflexivity|].
  refine (neighbours_within_threshold example_parser 10 true 10 _ _ _ _
            0%nat _ _ _ _ _).
  - vm_compute; reflexivity.
  - apply list_elem_of_here.
  - reflexivity.
  - reflexivity.
Defined.

(** ** The cap for every parameter *)

Lemma loop_cap_any um T io mm l :
  let st := foldl (loop_body um T io mm) ([], []) l in
  Forall (λ c : Conversation, Z.of_nat (length c) ≤ Z.max mm 1) st.1 ∧
  Z.of_nat (length st.2) ≤ Z.max mm 1.
Proof.
  apply (foldl_inv _ (λ _ st,
    Forall (λ c : Conversation, Z.of_nat (length c) ≤ Z.max mm 1) st.1 ∧
    Z.of_nat (length st.2) ≤ Z.max mm 1)).
  { split; [constructor|simpl; lia]. }
  intros _ x [convs cur] [Hconvs Hcur]. simpl in Hconvs, Hcur.
  destruct (Dict.content x) as [c|] eqn:Hc; [|by rewrite loop_body_skip].
  destruct (loop_body_cases um T io mm convs cur x c Hc)
    as [[-> Hlen]|[-> Hne]]; simpl.
  - split; [done|]. rewrite length_app. simpl.
    destruct Hlen as [->|Hlen]; simpl; lia.
  - split; [by apply close_Forall|lia].
Qed.

Lemma size_senders_le_length conversation :
  (size (senders conversation) ≤ length conversation)%nat.
Proof.
  unfold senders. induction conversation as [|m l IH].
  - change (size (∅ : gset string) ≤ 0)%nat. by rewrite size_empty.
  - rewrite fmap_cons, list_to_set_cons. simpl length.
    rewrite size_union_alt, size_singleton.
    pose proof (subseteq_size
      (list_to_set (Message.sender <$> l) ∖ {[Message.sender m]})
      (list_to_set (Message.sender <$> l) : gset string)
      ltac:(apply subseteq_difference_l; reflexivity)).
    lia.
Qed.

(** X5.  For every [max_messages], positive or not, a returned conversation
    has at most [max(max_messages, 1)] messages; so with [max_messages] at
    most 1 and [interchange_only] true nothing is ever returned. *)
Theorem cap_for_every_parameter self T io mm gc convs self' :
  parse_conversations self T io mm gc = inr (convs, self') →
  Forall (λ c : Conversation, Z.of_nat (length c) ≤ Z.max mm 1) convs ∧
  (mm ≤ 1 → io = true → convs = []).
Proof.
  intros Hr. apply parse_conversations_returns in Hr as ->.
  assert (Hcap : Forall (λ c : Conversation, Z.of_nat (length c) ≤ Z.max mm 1)
            (segment (user_mapping self) (sorted_messages (loaded_messages self))
               T io mm false)).
  { unfold segment.
    pose proof (loop_cap_any (user_mapping self) T io mm
                  (sorted_messages (loaded_messages self))) as [Hconvs Hcur].
    destruct (foldl _ _ _) as [convs cur]. simpl in Hconvs, Hcur.
    destruct cur; [done|]. by apply close_Forall. }
  split.
  - destruct gc; [|done]. rewrite segment_grouped, Forall_fmap.
    eapply Forall_impl; [exact Hcap|]. simpl. intros c Hc.
    pose proof (group_consecutive_length c). lia.
  - intros Hmm ->.
    pose proof (seg_valid _ _ _ _ _
      (segment_ungrouped (user_mapping self)
         (sorted_messages (loaded_messages self)) T true mm) eq_refl) as Hvalid.
    assert (Hnil : segment (user_mapping self)
                     (sorted_messages (loaded_messages self)) T true mm false = []).
    { destruct (segment _ _ _ _ _ false) as [|c convs]; [done|].
      apply Forall_cons in Hcap as [Hc _]. apply Forall_cons in Hvalid as [Hv _].
      pose proof (size_senders_le_length c). lia. }
    destruct gc; [|done]. by rewrite segment_grouped, Hnil.
Qed.

Lemma cap_for_every_parameter_witness :
  ∃ convs self',
    parse_conversations example_parser 30 false (-3) false = inr (convs, self') ∧
    Forall (λ c : Conversation, Z.of_nat (length c) ≤ Z.max (-3) 1) convs.
Proof.
  eexists _, _. split; [vm_compute; reflexivity|].
  refine (proj1 (cap_for_every_parameter example_parser 30 false (-3) false _ _ _)).
  vm_compute; reflexivity.
Defined.

(** ** One sender only *)

(** X6.  When all loaded records with content resolve to one sender, the
    parser with [interchange_only] true returns no conversation, whatever
    the other parameters. *)
Theorem single_sender_yields_nothing self T mm gc s convs self' :
  (∀ raw, raw ∈ loaded_messages self → is_Some (Dict.content raw) →
     _replace_username (user_mapping self) (default "" (Dict.sender_name raw)) = s) →
  parse_conversations self T true mm gc = inr (convs, self') →
  convs = [].
Proof.
  intros Hone Hr. apply parse_conversations_returns in Hr as ->.
  pose proof (segment_ungrouped (user_mapping self)
                (sorted_messages (loaded_messages self)) T true mm) as Hspec.
  pose proof (seg_valid _ _ _ _ _ Hspec eq_refl) as Hvalid.
  pose proof (seg_sublist _ _ _ _ _ Hspec) as Hsub.
  assert (Hnil : segment (user_mapping self)
                   (sorted_messages (loaded_messages self)) T true mm false = []).
  { destruct (segment _ _ _ _ _ false) as [|c convs]; [done|]. exfalso.
    apply Forall_cons in Hvalid as [Hv _].
    assert (Hs : senders c ⊆ {[s]}).
    { intros x Hx. unfold senders in Hx.
      apply elem_of_list_to_set, list_elem_of_fmap in Hx as (m & -> & Hm).
      apply elem_of_singleton.
      assert (Hin : m ∈ concat (c :: convs)).
      { simpl. apply elem_of_app. by left. }
      apply (sublist_subseteq _ _ Hsub) in Hin.
      apply processed_stream_elem in Hin as (raw & Hraw & Hc & ->).
      by apply Hone. }
    apply subseteq_size in Hs. rewrite size_singleton in Hs. lia. }
  destruct gc; [|done]. by rewrite segment_grouped, Hnil.
Qed.

Lemma single_sender_yields_nothing_witness :
  let self := parser_of test_mapping
                [raw "User Name" "one" 1000; raw "user name" "two" 2000] in
  (∀ raw, raw ∈ loaded_messages self → is_Some (Dict.content raw) →
     _replace_username (user_mapping self) (default "" (Dict.sender_name raw))
       = "user") ∧
  ∃ self', parse_conversations self 30 true 10 false = inr ([], self').
Proof.
  intros self.
  assert (Hone : ∀ raw, raw ∈ loaded_messages self → is_Some (Dict.content raw) →
     _replace_username (user_mapping self) (default "" (Dict.sender_name raw))
       = "user").
  { intros r Hr _. simpl in Hr.
    apply elem_of_cons in Hr as [->|Hr]; [reflexivity|].
    apply elem_of_cons in Hr as [->|Hr]; [reflexivity|].
    by apply elem_of_nil in Hr. }
  split; [exact Hone|].
  destruct (parser_of_returns test_mapping
              [raw "User Name" "one" 1000; raw "user name" "two" 2000]
              30 true 10 false) as [self' Hr].
  exists self'. fold self in Hr.
  pose proof (single_sender_yields_nothing self 30 10 false "user" _ _ Hone Hr)
    as Hnil.
  rewrite Hr. by rewrite Hnil.
Defined.

(** ** The grouping pass once more *)

Lemma group_from_fixed g l :
  adjacent_differ (g :: l) → group_from g l = g :: l.
Proof.
  revert g. induction l as [|m l IH]; intros g; [done|].
  intros [Hgm Hl]. simpl. rewrite bool_decide_eq_false_2 by done.
  by rewrite IH.
Qed.

Lemma group_from_last g l g' m :
  last (group_from g l) = Some g' → last (g :: l) = Some m →
  Message.timestamp_ms g' = Message.timestamp_ms m ∧
  Message.timestamp g' = Message.timestamp m.
Proof.
  revert g. induction l as [|x l IH]; intros g.
  - simpl. by intros [= <-] [= <-].
  - change (group_from g (x :: l)) with
      (if bool_decide (Message.sender g = Message.sender x)
       then group_from (absorb g x) l else g :: group_from x l).
    intros Hg' Hm. rewrite last_cons_cons in Hm.
    case_bool_decide.
    + destruct l as [|y l].
      * simpl in Hg', Hm. injection Hg' as <-. by injection Hm as <-.
      * apply (IH (absorb g x)); [done|].
        by rewrite last_cons_cons in Hm |- *.
    + destruct (group_from_head x l) as (h & t & Heq & _).
      rewrite Heq, last_cons_cons, <-Heq in Hg'. by apply (IH x).
Qed.

(** X7.  The grouping pass changes nothing in a conversation where no two
    neighbours have the same sender, so grouping twice is grouping once;
    and it keeps the sender of the first message and the [timestamp_ms] and
    [timestamp] of the last. *)
Theorem group_consecutive_idempotent conversation :
  (adjacent_differ conversation →
   _group_consecutive_messages conversation = conversation) ∧
  _group_consecutive_messages (_group_consecutive_messages conversation) =
    _group_consecutive_messages conversation ∧
  (∀ m, head conversation = Some m →
     ∃ g, head (_group_consecutive_messages conversation) = Some g ∧
          Message.sender g = Message.sender m) ∧
  (∀ m, last conversation = Some m →
     ∃ g, last (_group_consecutive_messages conversation) = Some g ∧
          Message.timestamp_ms g = Message.timestamp_ms m ∧
          Message.timestamp g = Message.timestamp m).
Proof.
  assert (Hfix : ∀ c, adjacent_differ c → _group_consecutive_messages c = c).
  { intros [|m l] Hc; [done|].
    rewrite group_consecutive_from. by apply group_from_fixed. }
  split; [apply Hfix|]. split; [|split].
  - apply Hfix. destruct conversation as [|m l]; [done|].
    rewrite group_consecutive_from. apply group_from_adjacent.
  - intros m Hm. destruct conversation as [|m' l]; [done|].
    injection Hm as ->. rewrite group_consecutive_from.
    destruct (group_from_head m l) as (h & t & -> & Hh). by exists h.
  - intros m Hm. destruct conversation as [|m' l]; [done|].
    rewrite group_consecutive_from.
    destruct (group_from_head m' l) as (h & t & Heq & _).
    assert (is_Some (last (group_from m' l))) as [g Hg].
    { rewrite Heq. by apply last_is_Some. }
    exists g. split; [done|]. by apply (group_from_last m' l).
Qed.

Lemma group_consecutive_idempotent_witness :
  let c := [Message.mk "user" "hi" 1000 None; Message.mk "friend" "yo" 2000 None] in
  adjacent_differ c ∧ _group_consecutive_messages c = c.
Proof.
  intros c.
  assert (H : adjacent_differ c) by (split; [discriminate|exact I]).
  split; [exact H|].
  exact (proj1 (group_consecutive_idempotent c) H).
Defined.

(** ** [get_statistics] after [parse_conversations] *)

Lemma parse_conversations_state self T io mm gc convs self' :
  parse_conversations self T io mm gc = inr (convs, self') →
  messages_data self' = messages_data self ∧
  (loaded_messages self ≠ [] → conversations self' = convs).
Proof.
  unfold parse_conversations, loaded_messages.
  destruct (messages_data self) as [[d|[|x arr]]|] eqn:Hd; simpl;
    [|by intros [= <- <-]|done|by intros [= <- <-]].
  destruct (Dict.truthy d) eqn:Ht; simpl.
  - destruct (sorted_messages (default [] (Dict.messages d))) eqn:Hs.
    + apply (proj1 (sorted_messages_nil _)) in Hs. rewrite Hs.
      by intros [= <- <-].
    + by intros [= <- <-].
  - assert (Dict.messages d = None) as ->.
    { unfold Dict.truthy in Ht. destruct (Dict.messages d); [|done].
      by rewrite !andb_false_r in Ht. }
    by intros [= <- <-].
Qed.

Lemma get_statistics_fields self st :
  get_statistics self = inr (Some st) →
  total_messages st = length (loaded_messages self) ∧
  messages_with_content st = length (with_content (loaded_messages self)) ∧
  total_conversations st = length (conversations self).
Proof.
  unfold get_statistics, loaded_messages.
  destruct (messages_data self) as [[d|arr]|]; [| |done].
  - destruct (negb (truthy (JObject d))); [done|].
    intros [= <-]. simpl. split; [done|]. split; [|done].
    apply (filter_bool_length (λ msg, is_Some (Dict.content msg))).
  - by destruct (negb (truthy (JArray arr))).
Qed.

Lemma grouped_length (convs : list Conversation) :
  (length (concat (_group_consecutive_messages <$> convs)) ≤ length (concat convs))%nat.
Proof.
  induction convs as [|c convs IH]; [done|].
  rewrite fmap_cons. simpl. rewrite !length_app.
  pose proof (group_consecutive_length c). lia.
Qed.

Lemma processed_stream_length um messages :
  length (processed_stream um (sorted_messages messages)) =
  length (with_content messages).
Proof.
  unfold processed_stream. rewrite length_fmap.
  apply Permutation_length. unfold with_content.
  apply filter_Permutation, (sorted_perm timestamp_key).
Qed.

(** X8.  The statistics read after a normal return of [parse_conversations]
    account for the returned conversations: the returned messages are at
    most [messages_with_content], which is at most [total_messages], with
    equality of the first two when neither the validity test nor the
    grouping pass runs; and [total_conversations] is the number of returned
    conversations whenever there was a message to parse. *)
Theorem statistics_after_parse self T io mm gc convs self' st :
  parse_conversations self T io mm gc = inr (convs, self') →
  get_statistics self' = inr (Some st) →
  (length (concat convs) ≤ messages_with_content st)%nat ∧
  (messages_with_content st ≤ total_messages st)%nat ∧
  (io = false → gc = false → length (concat convs) = messages_with_content st) ∧
  (loaded_messages self ≠ [] → total_conversations st = length convs).
Proof.
  intros Hr Hst.
  destruct (parse_conversations_state _ _ _ _ _ _ _ Hr) as [Hdata Hconvs].
  apply get_statistics_fields in Hst as (Htotal & Hcontent & Hcount).
  assert (Hloaded : loaded_messages self' = loaded_messages self).
  { unfold loaded_messages. by rewrite Hdata. }
  rewrite Hloaded in Htotal, Hcontent.
  apply parse_conversations_returns in Hr as Hseg.
  pose proof (segment_ungrouped (user_mapping self)
                (sorted_messages (loaded_messages self)) T io mm) as Hspec.
  pose proof (sublist_length _ _ (seg_sublist _ _ _ _ _ Hspec)) as Hlen.
  rewrite processed_stream_length in Hlen.
  split; [|split; [|split]].
  - rewrite Hcontent, Hseg. destruct gc; [|done].
    rewrite segment_grouped.
    pose proof (grouped_length (segment (user_mapping self)
      (sorted_messages (loaded_messages self)) T io mm false)). lia.
  - rewrite Hcontent, Htotal. apply length_filter.
  - intros -> ->. rewrite Hcontent, Hseg.
    rewrite (seg_all _ _ _ _ _ Hspec eq_refl).
    apply processed_stream_length.
  - intros Hne. rewrite Hcount. by rewrite Hconvs.
Qed.

Lemma statistics_after_parse_witness :
  ∃ convs self' st,
    parse_conversations example_parser 30 true 10 false = inr (convs, self') ∧
    get_statistics self' = inr (Some st) ∧
    (length (concat convs) ≤ messages_with_content st)%nat.
Proof.
  eexists _, _, _.
  split; [vm_compute; reflexivity|]. split; [vm_compute; reflexivity|].
  refine (proj1 (statistics_after_parse example_parser 30 true 10 false _ _ _ _ _)).
  - vm_compute; reflexivity.
  - vm_compute; reflexivity.
Defined.

(** ** [sorted] for any total order *)

Section SortedBy.
Context {A : Type} (leb : A → A → bool).
Hypothesis leb_total : ∀ x y, leb x y = true ∨ leb y x = true.
Hypothesis leb_trans : ∀ x y z, leb x y = true → leb y z = true → leb x z = true.

Lemma insert_sorted_perm_by x l : insert_sorted leb x l ≡ₚ x :: l.
Proof.
  induction l as [|y l IH]; simpl; [done|].
  destruct (leb x y); [done|].
  rewrite IH. apply Permutation_swap.
Qed.

Lemma sorted_perm_by l : sorted leb l ≡ₚ l.
Proof.
  induction l as [|x l IH]; [done|].
  change (sorted leb (x :: l)) with (insert_sorted leb x (sorted leb l)).
  by rewrite insert_sorted_perm_by, IH.
Qed.

Lemma insert_sorted_ordered_by x l :
  StronglySorted (λ a b, leb a b = true) l →
  StronglySorted (λ a b, leb a b = true) (insert_sorted leb x l).
Proof.
  induction 1 as [|y l Hl IH Hy]; simpl.
  - repeat constructor.
  - destruct (leb x y) eqn:Hxy.
    + constructor; [by constructor|].
      constructor; [done|].
      eapply Forall_impl; [exact Hy|]. simpl. eauto.
    + constructor; [done|].
      rewrite insert_sorted_perm_by. constructor; [|done].
      destruct (leb_total x y); congruence.
Qed.

Lemma sorted_ordered_by l : StronglySorted (λ a b, leb a b = true) (sorted leb l).
Proof.
  induction l as [|x l IH]; [constructor|].
  change (sorted leb (x :: l)) with (insert_sorted leb x (sorted leb l)).
  by apply insert_sorted_ordered_by.
Qed.

(** The sorted list does not depend on the input order when no two
    different elements are equal in the order. *)
Lemma sorted_by_permutation l l' :
  (∀ x y, x ∈ l → y ∈ l → leb x y = true → leb y x = true → x = y) →
  l ≡ₚ l' → sorted leb l = sorted leb l'.
Proof.
  intros Hanti Hperm.
  apply (StronglySorted_unique_strong (λ a b, leb a b = true)).
  - intros x y Hx Hy. apply Hanti.
    + by rewrite <-(sorted_perm_by l).
    + by rewrite Hperm, <-(sorted_perm_by l').
  - apply sorted_ordered_by.
  - apply sorted_ordered_by.
  - by rewrite !sorted_perm_by.
Qed.

End SortedBy.

(** ** [load_messages] on a directory *)

Lemma List_filter_Permutation {A} (f : A → bool) l l' :
  l ≡ₚ l' → List.filter f l ≡ₚ List.filter f l'.
Proof.
  induction 1 as [|x l l' _ IH|x y l|l l' l'' _ IH1 _ IH2]; simpl.
  - done.
  - destruct (f x); by rewrite IH.
  - destruct (f x), (f y); try done. apply Permutation_swap.
  - by etrans.
Qed.

Lemma NoDup_fst_inj {A B} (l : list (A * B)) x y :
  NoDup l.*1 → x ∈ l → y ∈ l → x.1 = y.1 → x = y.
Proof.
  induction l as [|z l IH]; [by intros _ ?%elem_of_nil|].
  rewrite fmap_cons. intros [Hz Hl]%NoDup_cons Hx Hy Hxy.
  apply elem_of_cons in Hx as [->|Hx]; apply elem_of_cons in Hy as [->|Hy].
  - done.
  - destruct Hz. rewrite Hxy. by apply list_elem_of_fmap_2.
  - destruct Hz. rewrite <-Hxy. by apply list_elem_of_fmap_2.
  - by apply IH.
Qed.

Lemma name_leb_total {B} (f g : string * B) :
  String.leb f.1 g.1 = true ∨ String.leb g.1 f.1 = true.
Proof. apply String.leb_total. Qed.

Lemma name_leb_trans {B} (f g h : string * B) :
  String.leb f.1 g.1 = true → String.leb g.1 h.1 = true →
  String.leb f.1 h.1 = true.
Proof.
  intros Hfg Hgh. apply Is_true_true.
  apply (transitivity (R:=String.le) (y:=g.1)); by apply Is_true_true.
Qed.

(** The messages gathered from a list of files, in that order. *)
Lemma foldl_extract (acc : list RawMessage) (files : list (string * option Decoded)) :
  foldl (λ acc f, match f.2 with
                  | Some file_data => acc ++ extract file_data
                  | None => acc
                  end) acc files =
  acc ++ concat ((λ f, from_option extract [] f.2) <$> files).
Proof.
  revert acc. induction files as [|[name [fd|]] files IH]; intros acc; simpl.
  - by rewrite app_nil_r.
  - by rewrite IH, app_assoc.
  - by rewrite IH.
Qed.

Lemma load_directory_unfold self entries :
  load_messages self (Directory entries) =
  match List.filter (λ f, Str.endswith f.1 ".json") entries with
  | [] => inl FileNotFoundError
  | json_files =>
      inr (with_data self (export_of
             (concat ((λ f, from_option extract [] f.2) <$>
                        sorted (λ f g, String.leb f.1 g.1) json_files))))
  end.
Proof.
  unfold load_messages.
  destruct (List.filter _ entries) as [|f fs]; [done|].
  by rewrite foldl_extract.
Qed.



(** X10.  The order in which the directory is listed does not matter: two
    listings of the same entries (with distinct names) load the same
    parser, the files being taken in the order of their names. *)
Theorem load_directory_any_listing_order self entries entries' :
  NoDup entries.*1 → entries ≡ₚ entries' →
  load_messages self (Directory entries) = load_messages self (Directory entries').
Proof.
  intros Hnames Hperm. rewrite !load_directory_unfold.
  pose proof (List_filter_Permutation (λ f, Str.endswith f.1 ".json") _ _ Hperm)
    as Hf.
  destruct (List.filter _ entries) as [|f fs] eqn:Hfs.
  { apply Permutation_nil in Hf. by rewrite Hf. }
  destruct (List.filter _ entries') as [|f' fs'] eqn:Hfs'.
  { symmetry in Hf. by apply Permutation_nil in Hf. }
  do 5 f_equal.
  apply sorted_by_permutation; [apply name_leb_total|apply name_leb_trans| |done].
  intros x y Hx Hy Hxy Hyx.
  apply (NoDup_fst_inj entries); [done|..].
  - rewrite <-Hfs in Hx. apply list_elem_of_In, filter_In in Hx as [Hx _].
    by apply list_elem_of_In.
  - rewrite <-Hfs in Hy. apply list_elem_of_In, filter_In in Hy as [Hy _].
    by apply list_elem_of_In.
  - by apply String.leb_antisym.
Qed.

Lemma load_directory_any_listing_order_witness :
  let a := ("message_1.json", Some (export_of [raw "User Name" "one" 1000])) in
  let b := ("message_2.json", Some (JArray [raw "Other Person" "two" 2000])) in
  NoDup [a; b].*1 ∧ [a; b] ≡ₚ [b; a] ∧
  load_messages (init test_mapping) (Directory [a; b]) =
  load_messages (init test_mapping) (Directory [b; a]).
Proof.
  intros a b.
  assert (Hnames : NoDup [a; b].*1).
  { apply NoDup_cons. split; [|apply NoDup_singleton].
    intros Hin. apply list_elem_of_singleton in Hin. discriminate. }
  assert (Hperm : [a; b] ≡ₚ [b; a]) by apply Permutation_swap.
  split; [exact Hnames|]. split; [exact Hperm|].
  exact (load_directory_any_listing_order (init test_mapping) _ _ Hnames Hperm).
Defined.

(** X11.  An export object loads to the same messages whether its file is
    given alone or is the one [.json] file of a directory, so
    [parse_conversations] returns the same conversations; but the directory
    branch keeps only the messages, and [get_statistics] then reports no
    participants. *)
Theorem export_alone_or_in_directory self name d ms :
  Str.endswith name ".json" = true →
  Dict.messages d = Some ms →
  ∃ self1 self2,
    load_messages self (File (Some (JObject d))) = inr self1 ∧
    load_messages self (Directory [(name, Some (JObject d))]) = inr self2 ∧
    loaded_messages self1 = ms ∧ loaded_messages self2 = ms ∧
    (∀ T io mm gc convs,
       (∃ s, parse_conversations self1 T io mm gc = inr (convs, s)) ↔
       (∃ s, parse_conversations self2 T io mm gc = inr (convs, s))) ∧
    ∃ st1 st2,
      get_statistics self1 = inr (Some st1) ∧
      get_statistics self2 = inr (Some st2) ∧
      total_messages st1 = total_messages st2 ∧
      messages_with_content st1 = messages_with_content st2 ∧
      participants st1 = default [] (Dict.participants d) ∧
      participants st2 = [].
Proof.
  intros Hname Hm.
  exists (with_data self (JObject d)), (with_data self (export_of ms)).
  assert (Ht : Dict.truthy d = true).
  { unfold Dict.truthy. rewrite Hm. by rewrite !andb_false_r. }
  split; [done|]. split.
  { rewrite load_directory_unfold. simpl. rewrite Hname. simpl.
    rewrite Hm. simpl. by rewrite app_nil_r. }
  split; [unfold loaded_messages; simpl; by rewrite Hm|].
  split; [done|]. split.
  - intros T io mm gc convs.
    unfold parse_conversations. simpl. rewrite Ht, Hm. simpl.
    destruct (sorted_messages ms); split; intros [s [= <-]]; by eexists.
  - unfold get_statistics. simpl. rewrite Ht, Hm. simpl.
    eexists _, _. by repeat split.
Qed.

Lemma export_alone_or_in_directory_witness :
  let d := Dict.mk None None None None (Some (four_messages 1700000000000))
             (Some ["User Name"; "Other Person"]) in
  Str.endswith "message_1.json" ".json" = true ∧
  Dict.messages d = Some (four_messages 1700000000000) ∧
  ∃ self1 self2,
    load_messages (init test_mapping) (File (Some (JObject d))) = inr self1 ∧
    load_messages (init test_mapping)
      (Directory [("message_1.json", Some (JObject d))]) = inr self2 ∧
    loaded_messages self1 = loaded_messages self2.
Proof.
  intros d. split; [reflexivity|]. split; [reflexivity|].
  destruct (export_alone_or_in_directory (init test_mapping) "message_1.json" d
              (four_messages 1700000000000) eq_refl eq_refl)
    as (self1 & self2 & H1 & H2 & Hl1 & Hl2 & _).
  exists self1, self2. split; [exact H1|]. split; [exact H2|].
  by rewrite Hl1, Hl2.
Defined.

(** ** The older parser: conversations are the maximal runs *)

Lemma legacy_loop_body_skip um T st message :
  Dict.content message = None → Legacy.loop_body um T st message = st.
Proof. intros H. destruct st. unfold Legacy.loop_body. by rewrite H. Qed.

Lemma legacy_loop_body_first um T convs message c :
  Dict.content message = Some c →
  Legacy.loop_body um T (convs, []) message =
    (convs, [Legacy.processed_msg um message]).
Proof. intros H. unfold Legacy.loop_body. by rewrite H. Qed.

Lemma legacy_loop_body_open um T convs cur last_msg message c :
  Dict.content message = Some c → last cur = Some last_msg →
  Legacy.loop_body um T (convs, cur) message =
    if bool_decide
         (Z.abs (Message.timestamp_ms (Legacy.processed_msg um message) -
                 Message.timestamp_ms last_msg) ≤ 1000 * T)
    then (convs, cur ++ [Legacy.processed_msg um message])
    else (convs ++ [cur], [Legacy.processed_msg um message]).
Proof.
  intros H Hlast. unfold Legacy.loop_body. rewrite H.
  destruct cur as [|first rest]; [done|].
  rewrite last_cons_last in Hlast. injection Hlast as <-.
  rewrite legacy_should_group_Z.
  destruct (Z.leb_spec (Z.abs (Message.timestamp_ms (Legacy.processed_msg um message)
                               - Message.timestamp_ms (List.last rest first)))
                       (1000 * T)).
  - by rewrite bool_decide_eq_true_2.
  - by rewrite bool_decide_eq_false_2 by lia.
Qed.

Lemma legacy_stream_snoc_skip um pre x :
  Dict.content x = None → legacy_stream um (pre ++ [x]) = legacy_stream um pre.
Proof.
  intros H. unfold legacy_stream, with_content.
  rewrite filter_app, filter_cons_False, filter_nil, app_nil_r; [done|].
  rewrite H. by intros [? ?].
Qed.

Lemma legacy_stream_snoc um pre x c :
  Dict.content x = Some c →
  legacy_stream um (pre ++ [x]) =
    legacy_stream um pre ++ [Legacy.processed_msg um x].
Proof.
  intros H. unfold legacy_stream, with_content.
  rewrite filter_app, filter_cons_True, filter_nil, fmap_app; [done|].
  rewrite H. by eexists.
Qed.

Lemma breaks_between_grow bound ls cur m :
  cur ≠ [] → breaks_between bound (ls ++ [cur]) →
  breaks_between bound (ls ++ [cur ++ [m]]).
Proof.
  intros Hne. induction ls as [|c ls IH]; [done|].
  destruct ls as [|c' ls]; simpl.
  - intros [Hb _]. split; [|done]. intros a b Ha Hb'. apply Hb; [done|].
    by destruct cur.
  - intros [Hb Hrest]. split; [done|]. by apply IH.
Qed.

Lemma breaks_between_snoc bound ls cur m :
  (∀ a, last cur = Some a →
     bound < Z.abs (Message.timestamp_ms m - Message.timestamp_ms a)) →
  breaks_between bound (ls ++ [cur]) →
  breaks_between bound ((ls ++ [cur]) ++ [[m]]).
Proof.
  intros Hm. induction ls as [|c ls IH]; simpl.
  - intros _. split; [|done]. intros a b Ha [= <-]. by apply Hm.
  - destruct ls as [|c' ls]; simpl.
    + intros [Hb _]. split; [done|]. split; [|done].
      intros a b Ha [= <-]. by apply Hm.
    + intros [Hb Hrest]. split; [done|]. by apply IH.
Qed.

Lemma count_breaks_snoc bound l a m :
  last l = Some a →
  count_breaks bound (l ++ [m]) =
    Nat.add (count_breaks bound l)
      (if bool_decide (bound < Z.abs (Message.timestamp_ms m - Message.timestamp_ms a))
       then 1%nat else 0%nat).
Proof.
  induction l as [|x l IH]; [done|].
  destruct l as [|y l].
  - intros [= ->]. simpl. lia.
  - rewrite last_cons_cons. intros Hlast.
    change (count_breaks bound ((x :: y :: l) ++ [m])) with
      (Nat.add
         (if bool_decide
               (bound < Z.abs (Message.timestamp_ms y - Message.timestamp_ms x))
          then 1%nat else 0%nat)
         (count_breaks bound ((y :: l) ++ [m]))).
    rewrite (IH Hlast). simpl. lia.
Qed.

(** What holds of the state of the older loop after it has consumed
    [pre]. *)
Lemma legacy_loop_inv um T l :
  let st := foldl (Legacy.loop_body um T) ([], []) l in
  concat st.1 ++ st.2 = legacy_stream um l ∧
  (st.2 = [] → st.1 = []) ∧
  Forall (λ c, c ≠ []) st.1 ∧
  Forall (gaps_within (1000 * T)) st.1 ∧ gaps_within (1000 * T) st.2 ∧
  breaks_between (1000 * T) (st.1 ++ [st.2]) ∧
  length st.1 = count_breaks (1000 * T) (legacy_stream um l).
Proof.
  apply (foldl_inv _ (λ pre st,
    concat st.1 ++ st.2 = legacy_stream um pre ∧
    (st.2 = [] → st.1 = []) ∧
    Forall (λ c, c ≠ []) st.1 ∧
    Forall (gaps_within (1000 * T)) st.1 ∧ gaps_within (1000 * T) st.2 ∧
    breaks_between (1000 * T) (st.1 ++ [st.2]) ∧
    length st.1 = count_breaks (1000 * T) (legacy_stream um pre))).
  { by repeat split. }
  intros pre x [convs cur] (Hcat & Hnil & Hne & Hgaps & Hgap & Hbr & Hcount).
  simpl in Hcat, Hnil, Hne, Hgaps, Hgap, Hbr, Hcount.
  destruct (Dict.content x) as [c|] eqn:Hc.
  2:{ rewrite legacy_loop_body_skip, legacy_stream_snoc_skip by done.
      by repeat split. }
  rewrite (legacy_stream_snoc um pre x c Hc).
  destruct (decide (cur = [])) as [->|Hcur].
  { rewrite (Hnil eq_refl) in *. erewrite legacy_loop_body_first by done.
    simpl in Hcat. rewrite <-Hcat. by repeat split. }
  assert (is_Some (last cur)) as [last_msg Hlast] by by apply last_is_Some.
  assert (Hstream : last (legacy_stream um pre) = Some last_msg).
  { rewrite <-Hcat, last_app, Hlast. done. }
  erewrite legacy_loop_body_open by done.
  rewrite (count_breaks_snoc _ _ last_msg) by done.
  set (gap := Z.abs (Message.timestamp_ms (Legacy.processed_msg um x) -
                     Message.timestamp_ms last_msg)) in *.
  destruct (decide (gap ≤ 1000 * T)) as [Hg|Hg].
  - rewrite (bool_decide_eq_true_2 (gap ≤ 1000 * T)) by done.
    rewrite (bool_decide_eq_false_2 (1000 * T < gap)) by lia. simpl.
    split; [by rewrite app_assoc, Hcat|].
    split; [by destruct cur|]. split; [done|]. split; [done|].
    split; [by eapply gaps_within_snoc|].
    split; [by apply breaks_between_grow|lia].
  - rewrite (bool_decide_eq_false_2 (gap ≤ 1000 * T)) by done.
    rewrite (bool_decide_eq_true_2 (1000 * T < gap)) by lia. simpl.
    split.
    { rewrite concat_app. simpl. by rewrite app_nil_r, <-app_assoc, app_assoc, Hcat. }
    split; [done|].
    split; [apply Forall_app; split; [done|by constructor]|].
    split; [apply Forall_app; split; [done|by constructor]|].
    split; [done|]. split.
    + apply breaks_between_snoc; [|done].
      intros a Ha. rewrite Hlast in Ha. injection Ha as <-. fold gap. lia.
    + rewrite length_app. simpl. lia.
Qed.

Lemma legacy_parse_returns self T convs self' :
  Legacy.parse_conversations self T = inr (convs, self') →
  convs = legacy_segment (user_mapping self)
            (sorted_messages (loaded_messages self)) T.
Proof.
  unfold Legacy.parse_conversations, loaded_messages, legacy_segment.
  destruct (messages_data self) as [[d|[|x arr]]|] eqn:Hd; simpl;
    [|by intros [= <- <-]|done|by intros [= <- <-]].
  destruct (Dict.truthy d) eqn:Ht; simpl.
  - destruct (sorted_messages (default [] (Dict.messages d))) eqn:Hs.
    + by intros [= <- <-].
    + destruct (foldl _ _ _) as [convs0 cur]. by intros [= <- <-].
  - assert (Dict.messages d = None) as ->.
    { unfold Dict.truthy in Ht. destruct (Dict.messages d); [|done].
      by rewrite !andb_false_r in Ht. }
    by intros [= <- <-].
Qed.

Lemma legacy_parser_of_returns um messages T :
  ∃ self', Legacy.parse_conversations (parser_of um messages) T =
             inr (legacy_segment um (sorted_messages messages) T, self').
Proof.
  unfold Legacy.parse_conversations, parser_of, legacy_segment. simpl.
  destruct (sorted_messages messages) eqn:Hs; [by eexists|].
  destruct (foldl _ _ _) as [convs cur]. by eexists.
Qed.

Lemma legacy_segment_spec um l T :
  let out := legacy_segment um l T in
  concat out = legacy_stream um l ∧
  Forall (λ c, c ≠ []) out ∧
  Forall (gaps_within (1000 * T)) out ∧
  breaks_between (1000 * T) out ∧
  length out =
    match legacy_stream um l with
    | [] => 0%nat
    | _ => S (count_breaks (1000 * T) (legacy_stream um l))
    end.
Proof.
  unfold legacy_segment.
  pose proof (legacy_loop_inv um T l) as Hinv.
  destruct (foldl _ _ l) as [convs cur].
  destruct Hinv as (Hcat & Hnil & Hne & Hgaps & Hgap & Hbr & Hcount).
  simpl in Hcat, Hnil, Hne, Hgaps, Hgap, Hbr, Hcount.
  destruct cur as [|m cur].
  - rewrite (Hnil eq_refl) in *. simpl in Hcat. rewrite <-Hcat. by repeat split.
  - simpl. split.
    { rewrite concat_app. simpl. by rewrite app_nil_r. }
    split; [apply Forall_app; split; [done|by constructor]|].
    split; [apply Forall_app; split; [done|by constructor]|].
    split; [done|].
    rewrite length_app, Hcount. simpl.
    destruct (legacy_stream um l) eqn:Heq; [by destruct (concat convs)|lia].
Qed.

Lemma breaks_between_lookup bound ls i c1 c2 a b :
  breaks_between bound ls → ls !! i = Some c1 → ls !! S i = Some c2 →
  last c1 = Some a → head c2 = Some b →
  bound < Z.abs (Message.timestamp_ms b - Message.timestamp_ms a).
Proof.
  revert i. induction ls as [|x ls IH]; intros i Hls; [done|].
  destruct ls as [|y ls]; [by destruct i|].
  destruct Hls as [Hxy Hls].
  destruct i as [|i]; simpl.
  - intros [= <-] [= <-]. apply Hxy.
  - apply (IH i Hls).
Qed.

Lemma count_breaks_antitone bound bound' l :
  bound ≤ bound' → (count_breaks bound' l ≤ count_breaks bound l)%nat.
Proof.
  intros Hb. induction l as [|x l IH]; [done|].
  destruct l as [|y l]; [done|].
  change (count_breaks ?B (x :: y :: l)) with
    (Nat.add
       (if bool_decide (B < Z.abs (Message.timestamp_ms y - Message.timestamp_ms x))
        then 1%nat else 0%nat)
       (count_breaks B (y :: l))).
  repeat case_bool_decide; lia.
Qed.

(** X12.  The older [parse_conversations] of [src/parser.py] cuts the
    processed messages, in sorted order and none left out, into the maximal
    runs of messages at most [time_threshold_seconds] apart: the returned
    conversations are not empty, together they are all the messages with
    content, neighbours inside a conversation are within the threshold, and
    the last message of a conversation and the first of the next are
    further apart than the threshold. *)
Theorem legacy_maximal_runs self T convs self' :
  Legacy.parse_conversations self T = inr (convs, self') →
  concat convs =
    legacy_stream (user_mapping self) (sorted_messages (loaded_messages self)) ∧
  Forall (λ c, c ≠ []) convs ∧
  (∀ c i a b, c ∈ convs → c !! i = Some a → c !! S i = Some b →
     Z.abs (Message.timestamp_ms b - Message.timestamp_ms a) ≤ 1000 * T) ∧
  (∀ i c1 c2 a b, convs !! i = Some c1 → convs !! S i = Some c2 →
     last c1 = Some a → head c2 = Some b →
     1000 * T < Z.abs (Message.timestamp_ms b - Message.timestamp_ms a)).
Proof.
  intros Hr. apply legacy_parse_returns in Hr as ->.
  destruct (legacy_segment_spec (user_mapping self)
              (sorted_messages (loaded_messages self)) T)
    as (Hcat & Hne & Hgaps & Hbr & _).
  split; [done|]. split; [done|]. split.
  - intros c i a b Hc. apply gaps_within_lookup.
    revert c Hc. by apply Forall_forall.
  - intros i c1 c2 a b. by apply breaks_between_lookup.
Qed.

Lemma legacy_maximal_runs_witness :
  ∃ convs self',
    Legacy.parse_conversations example_parser 10 = inr (convs, self') ∧
    concat convs =
      legacy_stream (user_mapping example_parser)
        (sorted_messages (loaded_messages example_parser)) ∧
    Forall (λ c, c ≠ []) convs.
Proof.
  eexists _, _. split; [vm_compute; reflexivity|].
  refine (let H := legacy_maximal_runs example_parser 10 _ _ _ in
          conj (proj1 H) (proj1 (proj2 H))).
  vm_compute; reflexivity.
Defined.

(** X13.  The older [parse_conversations] returns one conversation more than
    there are neighbouring processed messages further apart than the
    threshold (none when there is no message with content); so a larger
    threshold never gives more conversations. *)
Theorem legacy_count self T T' convs convs' self1 self2 :
  Legacy.parse_conversations self T = inr (convs, self1) →
  Legacy.parse_conversations self T' = inr (convs', self2) →
  length convs =
    match legacy_stream (user_mapping self)
            (sorted_messages (loaded_messages self)) with
    | [] => 0%nat
    | stream => S (count_breaks (1000 * T) stream)
    end ∧
  (T ≤ T' → (length convs' ≤ length convs)%nat).
Proof.
  intros Hr Hr'.
  apply legacy_parse_returns in Hr as ->.
  apply legacy_parse_returns in Hr' as ->.
  destruct (legacy_segment_spec (user_mapping self)
              (sorted_messages (loaded_messages self)) T)
    as (_ & _ & _ & _ & Hlen).
  destruct (legacy_segment_spec (user_mapping self)
              (sorted_messages (loaded_messages self)) T')
    as (_ & _ & _ & _ & Hlen').
  split.
  { rewrite Hlen. by destruct (legacy_stream _ _). }
  intros HT. rewrite Hlen, Hlen'.
  destruct (legacy_stream _ _) as [|m stream]; [done|].
  pose proof (count_breaks_antitone (1000 * T) (1000 * T') (m :: stream)
                ltac:(lia)). lia.
Qed.

Lemma legacy_count_witness :
  ∃ convs convs' self1 self2,
    Legacy.parse_conversations example_parser 10 = inr (convs, self1) ∧
    Legacy.parse_conversations example_parser 30 = inr (convs', self2) ∧
    10 ≤ 30 ∧ (length convs' ≤ length convs)%nat.
Proof.
  eexists _, _, _, _.
  split; [vm_compute; reflexivity|]. split; [vm_compute; reflexivity|].
  split; [lia|].
  refine (proj2 (legacy_count example_parser 10 30 _ _ _ _ _ _) _).
  - vm_compute; reflexivity.
  - vm_compute; reflexivity.
  - lia.
Defined.

(** ** The transformer *)

Lemma chatml_foldl acc (convs : list Conversation) :
  Forall (λ c, c ≠ []) convs →
  foldl MessageTransformer.chatml_body acc convs =
  acc ++ ((λ c, {| MessageTransformer.messages :=
                     MessageTransformer.chat_message <$> c |}) <$> convs).
Proof.
  intros Hne. revert acc. induction Hne as [|c convs Hc _ IH]; intros acc; simpl.
  - by rewrite app_nil_r.
  - rewrite IH. unfold MessageTransformer.chatml_body.
    destruct c as [|m c]; [done|]. simpl. by rewrite <-app_assoc.
Qed.

Lemma legacy_parse_state self T convs self' :
  Legacy.parse_conversations self T = inr (convs, self') →
  messages_data self' = messages_data self ∧
  user_mapping self' = user_mapping self ∧
  (conversations self' = convs ∨ (convs = [] ∧ self' = self)).
Proof.
  unfold Legacy.parse_conversations.
  destruct (messages_data self) as [[d|[|x arr]]|] eqn:Hd; simpl;
    [|intros [= <- <-]; auto|done|intros [= <- <-]; auto].
  destruct (Dict.truthy d); simpl; [|intros [= <- <-]; auto].
  destruct (sorted_messages (default [] (Dict.messages d))) eqn:Hs;
    [intros [= <- <-]; auto|].
  destruct (foldl _ _ _) as [convs0 cur]. intros [= <- <-]. auto.
Qed.

Lemma legacy_stream_contents um l :
  Message.content <$> legacy_stream um l =
  (λ raw, default "" (Dict.content raw)) <$> with_content l.
Proof. unfold legacy_stream. by rewrite <-list_fmap_compose. Qed.

(** X14.  [load_and_parse] on a transformer that holds no conversations
    yet, followed by [to_chatml_format]: the output has one record per
    conversation of the older parser, none of them empty; the contents of
    its messages, record after record, are the contents of all the loaded
    records that have content, unchanged and in sorted order; and a message
    has role ["user"] when its resolved sender is ["user"] up to case and
    ["assistant"] otherwise. *)
Theorem chatml_of_parsed_file self data T self' :
  conversations (MessageTransformer.parser self) = [] →
  MessageTransformer.load_and_parse self (File (Some data)) T = inr self' →
  let out := MessageTransformer.to_chatml_format self' in
  let loaded := loaded_messages (MessageTransformer.parser self') in
  length out = length (conversations (MessageTransformer.parser self')) ∧
  Forall (λ r, MessageTransformer.messages r ≠ []) out ∧
  MessageTransformer.content <$> concat (MessageTransformer.messages <$> out) =
    (λ raw, default "" (Dict.content raw)) <$> with_content (sorted_messages loaded) ∧
  Forall (λ cm, MessageTransformer.role cm = "user" ∨
                MessageTransformer.role cm = "assistant")
         (concat (MessageTransformer.messages <$> out)) ∧
  ∀ c msg, c ∈ conversations (MessageTransformer.parser self') → msg ∈ c →
    (MessageTransformer.role (MessageTransformer.chat_message msg) = "user"
     ↔ Str.lower (Message.sender msg) = "user").
Proof.
  intros Hfresh Hr out loaded.
  unfold MessageTransformer.load_and_parse in Hr. simpl in Hr.
  destruct (Legacy.parse_conversations _ T) as [e|[convs parsed]] eqn:Hp; [done|].
  injection Hr as <-. simpl in out, loaded. subst out loaded.
  destruct (legacy_parse_state _ _ _ _ Hp) as (Hdata & _ & Hst).
  pose proof (legacy_parse_returns _ _ _ _ Hp) as Hseg.
  assert (Hconvs : conversations parsed = convs).
  { destruct Hst as [->|[-> ->]]; [done|]. by simpl. }
  assert (Hloaded : loaded_messages parsed =
                    loaded_messages (with_data (MessageTransformer.parser self) data)).
  { unfold loaded_messages. by rewrite Hdata. }
  destruct (legacy_segment_spec
              (user_mapping (with_data (MessageTransformer.parser self) data))
              (sorted_messages
                 (loaded_messages (with_data (MessageTransformer.parser self) data)))
              T) as (Hcat & Hne & _).
  rewrite <-Hseg in Hcat, Hne.
  unfold MessageTransformer.to_chatml_format. simpl.
  rewrite Hconvs, chatml_foldl by done. simpl.
  split; [by rewrite length_fmap|]. split.
  { rewrite Forall_fmap. eapply Forall_impl; [exact Hne|]. simpl.
    intros c Hc. by destruct c. }
  split.
  { rewrite <-list_fmap_compose.
    assert (Hmap : ∀ cs : list Conversation,
      MessageTransformer.content <$>
        concat ((MessageTransformer.messages ∘
                 (λ c, {| MessageTransformer.messages :=
                            MessageTransformer.chat_message <$> c |})) <$> cs)
      = Message.content <$> concat cs).
    { induction cs as [|c cs IH]; [done|].
      rewrite fmap_cons. simpl. rewrite !fmap_app, IH. f_equal.
      by rewrite <-list_fmap_compose. }
    rewrite Hmap, Hcat, Hloaded. apply legacy_stream_contents. }
  split.
  { apply Forall_forall. intros cm Hcm.
    apply list_elem_of_In, in_concat in Hcm as (msgs & Hmsgs & Hcm).
    apply list_elem_of_In in Hmsgs, Hcm.
    apply list_elem_of_fmap in Hmsgs as (r & -> & Hrec).
    apply list_elem_of_fmap in Hrec as (c & -> & _). simpl in Hcm.
    apply list_elem_of_fmap in Hcm as (msg & -> & _).
    unfold MessageTransformer.chat_message, MessageTransformer._map_sender_to_role.
    simpl. case_bool_decide; auto. }
  intros c msg _ _.
  unfold MessageTransformer.chat_message, MessageTransformer._map_sender_to_role.
  simpl. case_bool_decide; split; try done.
Qed.

Lemma chatml_of_parsed_file_witness :
  let self := MessageTransformer.init (MessageTransformer.UsersMapping test_mapping) in
  let data := export_of (four_messages 1700000000000) in
  conversations (MessageTransformer.parser self) = [] ∧
  ∃ self',
    MessageTransformer.load_and_parse self (File (Some data)) 30 = inr self' ∧
    length (MessageTransformer.to_chatml_format self') =
      length (conversations (MessageTransformer.parser self')).
Proof.
  intros self data. split; [reflexivity|].
  eexists. split; [vm_compute; reflexivity|].
  refine (proj1 (chatml_of_parsed_file self data 30 _ eq_refl _)).
  vm_compute; reflexivity.
Defined.

(** ** [_fix_encoding] *)

Ltac divlia := zify; Z.to_euclidean_division_equations; lia.

Lemma in_range_true lo hi b :
  (lo ≤ b)%N → (b ≤ hi)%N → Encoding.in_range lo hi b = true.
Proof.
  intros Hlo Hhi. unfold Encoding.in_range.
  by rewrite (proj2 (N.leb_le lo b)), (proj2 (N.leb_le b hi)).
Qed.

Lemma in_range_false lo hi b :
  (b < lo)%N ∨ (hi < b)%N → Encoding.in_range lo hi b = false.
Proof.
  unfold Encoding.in_range. intros [H|H].
  - by rewrite (proj2 (N.leb_gt lo b)).
  - rewrite (proj2 (N.leb_gt b hi)) by done. apply andb_false_r.
Qed.

Lemma in_range_spec lo hi b :
  Encoding.in_range lo hi b = true ↔ (lo ≤ b)%N ∧ (b ≤ hi)%N.
Proof.
  unfold Encoding.in_range. rewrite andb_true_iff, !N.leb_le. done.
Qed.

Lemma encode_latin1_bytes bs :
  Forall (λ b, (b ≤ 255)%N) bs → Encoding.encode_latin1 bs = Some bs.
Proof.
  induction 1 as [|b bs Hb _ IH]; simpl; [done|].
  by rewrite (proj2 (N.leb_le b 255)), IH.
Qed.

Lemma encode_char_bytes c :
  Encoding.scalar c → Forall (λ b, (b ≤ 255)%N) (Encoding.encode_char c).
Proof.
  intros [_ Hmax]. unfold Encoding.encode_char.
  destruct (N.ltb_spec c 128); [repeat constructor; lia|].
  destruct (N.ltb_spec c 2048); [repeat constructor; divlia|].
  destruct (N.ltb_spec c 65536); repeat constructor; divlia.
Qed.

Lemma decode_encode_char c rest :
  Encoding.scalar c →
  Encoding.decode_utf8 (Encoding.encode_char c ++ rest) =
    cons c <$> Encoding.decode_utf8 rest.
Proof.
  intros [Hsur Hmax]. unfold Encoding.encode_char.
  destruct (N.ltb_spec c 128) as [H1|H1].
  { cbn [app Encoding.decode_utf8]. by rewrite (proj2 (N.ltb_lt c 128)). }
  destruct (N.ltb_spec c 2048) as [H2|H2].
  { cbn [app Encoding.decode_utf8].
    rewrite (proj2 (N.ltb_ge _ 128)) by divlia.
    rewrite (in_range_true 194 223), (in_range_true 128 191) by divlia.
    do 2 f_equal. divlia. }
  destruct (N.ltb_spec c 65536) as [H3|H3].
  { cbn [app Encoding.decode_utf8].
    rewrite (proj2 (N.ltb_ge _ 128)) by divlia.
    rewrite (in_range_false 194 223) by (right; divlia).
    rewrite (in_range_true 224 239) by divlia.
    rewrite (in_range_true _ _ (128 + (c / 64) mod 64)).
    - rewrite (in_range_true 128 191) by divlia. simpl andb.
      do 2 f_equal. divlia.
    - destruct (N.eqb_spec (224 + c / 4096) 224); divlia.
    - destruct (N.eqb_spec (224 + c / 4096) 237); divlia. }
  cbn [app Encoding.decode_utf8].
  rewrite (proj2 (N.ltb_ge _ 128)) by divlia.
  rewrite (in_range_false 194 223) by (right; divlia).
  rewrite (in_range_false 224 239) by (right; divlia).
  rewrite (in_range_true 240 244) by divlia.
  rewrite (in_range_true _ _ (128 + (c / 4096) mod 64)).
  - rewrite !(in_range_true 128 191) by divlia. simpl andb.
    do 2 f_equal. divlia.
  - destruct (N.eqb_spec (240 + c / 262144) 240); divlia.
  - destruct (N.eqb_spec (240 + c / 262144) 244); divlia.
Qed.

Lemma decode_garbled text :
  Forall Encoding.scalar text →
  Encoding.decode_utf8 (Encoding.garbled text) = Some text.
Proof.
  unfold Encoding.garbled.
  induction 1 as [|c text Hc _ IH]; [done|].
  rewrite fmap_cons. simpl concat.
  by rewrite decode_encode_char, IH.
Qed.

Lemma garbled_bytes text :
  Forall Encoding.scalar text →
  Forall (λ b, (b ≤ 255)%N) (Encoding.garbled text).
Proof.
  unfold Encoding.garbled.
  induction 1 as [|c text Hc _ IH]; [constructor|].
  rewrite fmap_cons. simpl concat. apply Forall_app.
  split; [by apply encode_char_bytes|done].
Qed.

(** X15.  The string branch of [_fix_encoding] undoes the garbling of the
    exports: a text of Unicode scalar values whose UTF-8 bytes were each
    read as one character comes back as the text. *)
Theorem fix_encoding_repairs text :
  Forall Encoding.scalar text →
  Encoding.fix_str (Encoding.garbled text) = text.
Proof.
  intros Htext. unfold Encoding.fix_str.
  rewrite encode_latin1_bytes by by apply garbled_bytes.
  by rewrite decode_garbled.
Qed.

Lemma fix_encoding_repairs_witness :
  (* "é" and the grinning face U+1F600 *)
  Forall Encoding.scalar [233; 128512]%N ∧
  Encoding.garbled [233; 128512]%N = [195; 169; 240; 159; 152; 128]%N ∧
  Encoding.fix_str [195; 169; 240; 159; 152; 128]%N = [233; 128512]%N.
Proof.
  assert (H : Forall Encoding.scalar [233; 128512]%N).
  { repeat constructor; unfold Encoding.scalar; lia. }
  split; [exact H|]. split; [reflexivity|].
  exact (fix_encoding_repairs [233; 128512]%N H).
Defined.

Lemma garbled_cons c text :
  Encoding.garbled (c :: text) = Encoding.encode_char c ++ Encoding.garbled text.
Proof. done. Qed.

(** Whatever the strict decoder accepts is the UTF-8 form of a text of
    scalar values. *)
Lemma decode_utf8_inv n bs text :
  (length bs ≤ n)%nat → Encoding.decode_utf8 bs = Some text →
  Forall Encoding.scalar text ∧ Encoding.garbled text = bs.
Proof.
  revert bs text. induction n as [|n IH]; intros bs text Hlen Hd.
  { destruct bs; [|simpl in Hlen; lia]. by injection Hd as <-. }
  destruct bs as [|b1 r1]; [by injection Hd as <-|].
  cbn [Encoding.decode_utf8] in Hd. simpl in Hlen.
  destruct (N.ltb_spec b1 128) as [H1|H1].
  { apply fmap_Some in Hd as (t & Ht & ->).
    apply IH in Ht as [Hs Hg]; [|lia]. split.
    - constructor; [unfold Encoding.scalar; lia|done].
    - rewrite garbled_cons, Hg. unfold Encoding.encode_char.
      by rewrite (proj2 (N.ltb_lt b1 128)). }
  destruct (Encoding.in_range 194 223 b1) eqn:E2.
  { apply in_range_spec in E2.
    destruct r1 as [|b2 r2]; [done|].
    destruct (Encoding.in_range 128 191 b2) eqn:E22; [|done].
    apply in_range_spec in E22.
    apply fmap_Some in Hd as (t & Ht & ->).
    apply IH in Ht as [Hs Hg]; [|simpl in Hlen; lia]. split.
    - constructor; [unfold Encoding.scalar; lia|done].
    - rewrite garbled_cons, Hg. unfold Encoding.encode_char.
      rewrite (proj2 (N.ltb_ge _ 128)), (proj2 (N.ltb_lt _ 2048)) by lia.
      simpl app. f_equal; [divlia|]. f_equal. divlia. }
  destruct (Encoding.in_range 224 239 b1) eqn:E3.
  { apply in_range_spec in E3.
    destruct r1 as [|b2 [|b3 r3]]; [done..|].
    destruct (Encoding.in_range _ _ b2) eqn:E32; [|done].
    destruct (Encoding.in_range 128 191 b3) eqn:E33; [|done].
    apply in_range_spec in E32, E33.
    assert (E32' : (128 ≤ b2 ≤ 191)%N ∧ (b1 = 224%N → (160 ≤ b2)%N) ∧
                   (b1 = 237%N → (b2 ≤ 159)%N)).
    { revert E32. destruct (N.eqb_spec b1 224), (N.eqb_spec b1 237); lia. }
    clear E32. destruct E32' as (E32 & Hlow & Hhigh).
    apply fmap_Some in Hd as (t & Ht & ->).
    apply IH in Ht as [Hs Hg]; [|simpl in Hlen; lia].
    assert (Hc : (2048 ≤ (b1 - 224) * 4096 + (b2 - 128) * 64 + (b3 - 128) < 65536)%N
                 ∧ Encoding.scalar ((b1 - 224) * 4096 + (b2 - 128) * 64 + (b3 - 128))).
    { unfold Encoding.scalar.
      destruct (N.eq_dec b1 224%N), (N.eq_dec b1 237%N); lia. }
    destruct Hc as [Hc Hsc]. split; [by constructor|].
    rewrite garbled_cons, Hg. unfold Encoding.encode_char.
    rewrite (proj2 (N.ltb_ge _ 128)), (proj2 (N.ltb_ge _ 2048)),
      (proj2 (N.ltb_lt _ 65536)) by lia.
    simpl app. f_equal; [divlia|]. f_equal; [divlia|]. f_equal. divlia. }
  destruct (Encoding.in_range 240 244 b1) eqn:E4; [|done].
  apply in_range_spec in E4.
  destruct r1 as [|b2 [|b3 [|b4 r4]]]; [done..|].
  destruct (Encoding.in_range _ _ b2) eqn:E42; [|done].
  destruct (Encoding.in_range 128 191 b3) eqn:E43; [|done].
  destruct (Encoding.in_range 128 191 b4) eqn:E44; [|done].
  apply in_range_spec in E42, E43, E44.
  assert (E42' : (128 ≤ b2 ≤ 191)%N ∧ (b1 = 240%N → (144 ≤ b2)%N) ∧
                 (b1 = 244%N → (b2 ≤ 143)%N)).
  { revert E42. destruct (N.eqb_spec b1 240), (N.eqb_spec b1 244); lia. }
  clear E42. destruct E42' as (E42 & Hlow & Hhigh).
  apply fmap_Some in Hd as (t & Ht & ->).
  apply IH in Ht as [Hs Hg]; [|simpl in Hlen; lia].
  assert (Hc : (65536 ≤ (b1 - 240) * 262144 + (b2 - 128) * 4096 +
                        (b3 - 128) * 64 + (b4 - 128) < 1114112)%N).
  { destruct (N.eq_dec b1 240%N), (N.eq_dec b1 244%N); lia. }
  split; [constructor; [unfold Encoding.scalar; lia|done]|].
  rewrite garbled_cons, Hg. unfold Encoding.encode_char.
  rewrite (proj2 (N.ltb_ge _ 128)), (proj2 (N.ltb_ge _ 2048)),
    (proj2 (N.ltb_ge _ 65536)) by lia.
  simpl app. f_equal; [divlia|]. f_equal; [divlia|]. f_equal; [divlia|].
  f_equal. divlia.
Qed.

Lemma encode_latin1_Some s bs :
  Encoding.encode_latin1 s = Some bs → bs = s ∧ Forall (λ c, (c ≤ 255)%N) s.
Proof.
  revert bs. induction s as [|c s IH]; intros bs; simpl.
  - by intros [= <-].
  - destruct (N.leb_spec c 255); [|done].
    intros (t & Ht & ->)%fmap_Some. destruct (IH t Ht) as [-> Hs].
    split; [done|by constructor].
Qed.

(** X16.  The string branch of [_fix_encoding] changes a string only by
    undoing a garbling: the result is the string itself, or a text of
    Unicode scalar values whose garbled form the string was.  A string with
    a character above U+00FF and a string of ASCII characters are
    unchanged. *)
Theorem fix_encoding_only_repairs s :
  (Encoding.fix_str s = s ∨
   (Forall Encoding.scalar (Encoding.fix_str s) ∧
    Encoding.garbled (Encoding.fix_str s) = s)) ∧
  (Exists (λ c, (255 < c)%N) s → Encoding.fix_str s = s) ∧
  (Forall (λ c, (c < 128)%N) s → Encoding.fix_str s = s).
Proof.
  split; [|split].
  - unfold Encoding.fix_str.
    destruct (Encoding.encode_latin1 s) as [bs|] eqn:He; [|by left].
    apply encode_latin1_Some in He as [-> _].
    destruct (Encoding.decode_utf8 s) as [text|] eqn:Hd; [|by left].
    right. by apply (decode_utf8_inv (length s)).
  - intros Hex. unfold Encoding.fix_str.
    destruct (Encoding.encode_latin1 s) as [bs|] eqn:He; [|done].
    apply encode_latin1_Some in He as [_ Hall].
    apply Exists_exists in Hex as (c & Hc & Hbig).
    pose proof (proj1 (Forall_forall _ _) Hall c Hc). simpl in *. lia.
  - intros Hascii. unfold Encoding.fix_str.
    rewrite encode_latin1_bytes.
    2:{ eapply Forall_impl; [exact Hascii|]. simpl. lia. }
    assert (Encoding.decode_utf8 s = Some s) as ->; [|done].
    induction Hascii as [|c s Hc _ IH]; [done|].
    cbn [Encoding.decode_utf8]. by rewrite (proj2 (N.ltb_lt c 128)), IH.
Qed.

Lemma fix_encoding_only_repairs_witness :
  Exists (λ c, (255 < c)%N) [72; 8364]%N ∧
  Encoding.fix_str [72; 8364]%N = [72; 8364]%N.
Proof.
  assert (H : Exists (λ c, (255 < c)%N) [72; 8364]%N).
  { apply Exists_cons_tl, Exists_cons_hd. lia. }
  split; [exact H|].
  exact (proj1 (proj2 (fix_encoding_only_repairs [72; 8364]%N)) H).
Defined.

Lemma Json_induction (P : Encoding.Json → Prop) :
  (∀ s, P (Encoding.JStr s)) →
  (∀ items, Forall (λ item, P item.2) items → P (Encoding.JDict items)) →
  (∀ l, Forall P l → P (Encoding.JList l)) →
  (∀ v, P (Encoding.JOther v)) →
  ∀ obj, P obj.
Proof.
  intros Hs Hd Hl Ho. fix IH 1. intros [s|items|l|v].
  - apply Hs.
  - apply Hd. induction items as [|item items IHitems]; constructor.
    + apply IH.
    + apply IHitems.
  - apply Hl. induction l as [|x l IHl]; constructor.
    + apply IH.
    + apply IHl.
  - apply Ho.
Qed.

(** X17.  [_fix_encoding] repairs a whole decoded tree: when the string
    values of a tree of texts were garbled, at any depth of objects and
    arrays, the tree comes back.  The keys of an object are never
    touched. *)
Theorem fix_encoding_tree :
  (∀ obj, Encoding.texts obj →
     Encoding._fix_encoding (Encoding.garbled_values obj) = obj) ∧
  (∀ items,
     ∃ items', Encoding._fix_encoding (Encoding.JDict items) = Encoding.JDict items' ∧
               items'.*1 = items.*1).
Proof.
  split.
  - apply (Json_induction (λ obj, Encoding.texts obj →
             Encoding._fix_encoding (Encoding.garbled_values obj) = obj)).
    + intros s Hs. simpl. f_equal. by apply fix_encoding_repairs.
    + intros items IH Ht. simpl. f_equal.
      induction IH as [|[k v] items Hv _ IHitems]; [done|].
      destruct Ht as [Htv Ht]. rewrite !fmap_cons. simpl.
      f_equal; [f_equal; by apply Hv|by apply IHitems].
    + intros l IH Ht. simpl. f_equal.
      induction IH as [|x l Hx _ IHl]; [done|].
      destruct Ht as [Htx Ht]. rewrite !fmap_cons.
      f_equal; [by apply Hx|by apply IHl].
    + done.
  - intros items. eexists. split; [done|].
    rewrite <-list_fmap_compose. by apply list_fmap_ext.
Qed.

Lemma fix_encoding_tree_witness :
  (* {"content": "é", "reactions": ["é"]} *)
  let obj := Encoding.JDict
    [([99; 111; 110; 116; 101; 110; 116]%N, Encoding.JStr [233]%N);
     ([114; 101; 97; 99; 116; 105; 111; 110; 115]%N,
      Encoding.JList [Encoding.JStr [233]%N])] in
  Encoding.texts obj ∧
  Encoding._fix_encoding (Encoding.garbled_values obj) = obj.
Proof.
  intros obj.
  assert (H : Encoding.texts obj).
  { simpl. repeat split; repeat constructor; unfold Encoding.scalar; lia. }
  split; [exact H|].
  exact (proj1 fix_encoding_tree obj H).
Defined.

(** ** Outcomes of [load_and_parse] *)


(** ** The order of the loaded messages *)

Lemma NoDup_key_inj {A} (key : A → Z) (l : list A) x y :
  NoDup (key <$> l) → x ∈ l → y ∈ l → key x = key y → x = y.
Proof.
  induction l as [|z l IH]; [by intros _ ?%elem_of_nil|].
  rewrite fmap_cons. intros [Hz Hl]%NoDup_cons Hx Hy Hxy.
  apply elem_of_cons in Hx as [->|Hx]; apply elem_of_cons in Hy as [->|Hy].
  - done.
  - destruct Hz. rewrite Hxy. by apply list_elem_of_fmap_2.
  - destruct Hz. rewrite <-Hxy. by apply list_elem_of_fmap_2.
  - by apply IH.
Qed.

Lemma sorted_messages_permutation messages messages' :
  NoDup (timestamp_key <$> messages) → messages ≡ₚ messages' →
  sorted_messages messages = sorted_messages messages'.
Proof.
  intros Hkeys Hperm. unfold sorted_messages.
  apply sorted_by_permutation; [| | |done].
  - intros x y. unfold key_leb. rewrite !Z.leb_le. lia.
  - intros x y z. unfold key_leb. rewrite !Z.leb_le. lia.
  - intros x y Hx Hy. unfold key_leb. rewrite !Z.leb_le. intros Hxy Hyx.
    apply (NoDup_key_inj timestamp_key messages); [done..|lia].
Qed.

(** X19.  When no two loaded records have the same [timestamp_ms], the
    order in which they were loaded does not matter: two parsers with the
    same mapping and the same records in any order return the same
    conversations. *)
Theorem parse_any_loading_order self1 self2 T io mm gc convs1 convs2 s1 s2 :
  user_mapping self1 = user_mapping self2 →
  NoDup (timestamp_key <$> loaded_messages self1) →
  loaded_messages self1 ≡ₚ loaded_messages self2 →
  parse_conversations self1 T io mm gc = inr (convs1, s1) →
  parse_conversations self2 T io mm gc = inr (convs2, s2) →
  convs1 = convs2.
Proof.
  intros Hum Hkeys Hperm Hr1 Hr2.
  apply parse_conversations_returns in Hr1 as ->.
  apply parse_conversations_returns in Hr2 as ->.
  by rewrite Hum, (sorted_messages_permutation _ _ Hkeys Hperm).
Qed.

Lemma parse_any_loading_order_witness :
  let l1 := four_messages 1700000000000 in
  let l2 := reverse (four_messages 1700000000000) in
  NoDup (timestamp_key <$> loaded_messages (parser_of test_mapping l1)) ∧
  loaded_messages (parser_of test_mapping l1) ≡ₚ
    loaded_messages (parser_of test_mapping l2) ∧
  ∃ convs s1 s2,
    parse_conversations (parser_of test_mapping l1) 30 true 10 false
      = inr (convs, s1) ∧
    parse_conversations (parser_of test_mapping l2) 30 true 10 false
      = inr (convs, s2).
Proof.
  intros l1 l2.
  assert (Hkeys : NoDup (timestamp_key <$>
                           loaded_messages (parser_of test_mapping l1))).
  { apply (bool_decide_unpack _). vm_compute. exact I. }
  assert (Hperm : loaded_messages (parser_of test_mapping l1) ≡ₚ
                  loaded_messages (parser_of test_mapping l2)).
  { symmetry. apply reverse_Permutation. }
  split; [exact Hkeys|]. split; [exact Hperm|].
  destruct (parser_of_returns test_mapping l1 30 true 10 false) as [s1 H1].
  destruct (parser_of_returns test_mapping l2 30 true 10 false) as [s2 H2].
  pose proof (parse_any_loading_order (parser_of test_mapping l1)
                (parser_of test_mapping l2) 30 true 10 false _ _ s1 s2
                eq_refl Hkeys Hperm H1 H2) as Heq.
  exists (segment test_mapping (sorted_messages l1) 30 true 10 false), s1, s2.
  split; [exact H1|]. rewrite Heq. exact H2.
Defined.

Lemma filter_fmap_comm {A B} (f : A → B) (P : B → Prop) `{∀ y, Decision (P y)}
    (l : list A) :
  filter P (f <$> l) = f <$> filter (λ x, P (f x)) l.
Proof.
  induction l as [|x l IH]; [done|].
  rewrite fmap_cons, !filter_cons. destruct (decide (P (f x))); by rewrite IH.
Qed.

Lemma filter_swap {A} (P Q : A → Prop) `{∀ x, Decision (P x)}
    `{∀ x, Decision (Q x)} (l : list A) :
  filter P (filter Q l) = filter Q (filter P l).
Proof.
  induction l as [|x l IH]; [done|].
  rewrite !filter_cons.
  destruct (decide (Q x)), (decide (P x)); rewrite ?filter_cons;
    repeat case_decide; try done; by rewrite IH.
Qed.

(** X20.  Records with the same [timestamp_ms] keep the order in which they
    were loaded: with neither validity test nor grouping pass, the returned
    messages of one timestamp are the processed forms of the loaded records
    with content and that timestamp, in loading order. *)
Theorem ties_keep_loading_order self T mm k convs self' :
  parse_conversations self T false mm false = inr (convs, self') →
  filter (λ m, Message.timestamp_ms m = k) (concat convs) =
    processed_msg (user_mapping self) <$>
      filter (λ raw, timestamp_key raw = k) (with_content (loaded_messages self)).
Proof.
  intros Hr. apply parse_conversations_returns in Hr as ->.
  rewrite (seg_all _ _ _ _ _ (segment_ungrouped _ _ T false mm) eq_refl).
  unfold processed_stream, with_content.
  rewrite filter_fmap_comm. f_equal.
  change (λ x, Message.timestamp_ms (processed_msg (user_mapping self) x) = k)
    with (λ x, timestamp_key x = k).
  rewrite (filter_swap (λ x, timestamp_key x = k)).
  unfold sorted_messages.
  change (filter (λ m, is_Some (Dict.content m))
            (filter (λ x, timestamp_key x = k)
               (sorted (key_leb timestamp_key) (loaded_messages self))) =
          filter (λ raw, timestamp_key raw = k)
            (filter (λ m, is_Some (Dict.content m)) (loaded_messages self))).
  rewrite (sorted_stable timestamp_key k (loaded_messages self)).
  apply filter_swap.
Qed.

Lemma ties_keep_loading_order_witness :
  let self := parser_of [] [raw "a" "first" 1000; raw "b" "second" 1000] in
  ∃ convs self',
    parse_conversations self 30 false 10 false = inr (convs, self') ∧
    filter (λ m, Message.timestamp_ms m = 1000) (concat convs) =
      processed_msg [] <$> [raw "a" "first" 1000; raw "b" "second" 1000].
Proof.
  intros self. eexists _, _. split; [vm_compute; reflexivity|].
  refine (ties_keep_loading_order self 30 10 1000 _ _ _).
  vm_compute; reflexivity.
Defined.
